(** * Hydrosphere [unique_ptr]: ownership model and its properties

    Source: libhydrosphere/source/common/compiler/unique_ptr.cpp

    A [unique_ptr<T>] object is one field, [native_ptr_ : T*].  The
    embedding keeps two pieces of program state:

    - the live [unique_ptr] objects, a finite map from the storage
      location of each handle to the value of its [native_ptr_];
    - the history of the [delete] expressions that reached an object,
      in program order.

    Every member function is a computation over this state in a small
    state-and-fault monad.  A member function takes the location of
    [*this] first; a reference parameter is the location of the handle
    it refers to, so that two references to one handle alias.

    The class is embedded first for an element type whose destructor
    touches no handle, with handles compared within one element type
    and the three checks of the source read as run-time assertions.
    Three further parts lift these limits where a property depends on
    them: [related] (comparison across related element types),
    [as_written] (the checks as [static_assert]) and [nested]
    (objects that hold handles of their own). *)

From stdpp Require Import gmap list fin_maps.

Open Scope N_scope.

(** ** Addresses and handle locations *)

(** The value of a [T*]: the address of the pointee. *)
Definition addr := N.

(** [nullptr]. *)
Definition nullptr : addr := 0.

(** The storage location of a [unique_ptr] object. *)
Definition loc := nat.

(** ** Program state *)

Record state := State {
  handles : gmap loc addr;   (* native_ptr_ of every live handle *)
  deleted : list addr        (* objects reached by [delete], oldest first *)
}.

Definition init : state := State ∅ [].

(** ** The monad *)

Inductive fault :=
  | AssertionFailed   (* the condition of an assertion is false *)
  | DeadHandle        (* a member of a handle outside its lifetime is used *)
  | OutOfFuel.        (* the bound on nested destructor calls is used up *)

Inductive outcome (A : Type) :=
  | Done (a : A) (s : state)
  | Fault (f : fault).
Arguments Done {A} a s.
Arguments Fault {A} f.

Definition M (A : Type) := state → outcome A.

Definition run {A} (m : M A) (s : state) : outcome A := m s.

Definition fail {A} (f : fault) : M A := λ _, Fault f.

(** Sequencing is stdpp's [x ← m; k] and [m;; k], through the two
    instances below. *)
#[global] Instance M_ret : MRet M := λ A a s, Done a s.

#[global] Instance M_bind : MBind M := λ A B k m s,
  match m s with
  | Done a s' => k a s'
  | Fault f => Fault f
  end.

(** ** Primitive actions *)

(** Read [h.native_ptr_]. *)
Definition load (h : loc) : M addr :=
  λ s, match handles s !! h with
       | Some p => Done p s
       | None => Fault DeadHandle
       end.

(** [h.native_ptr_ = p]. *)
Definition store (h : loc) (p : addr) : M unit :=
  λ s, match handles s !! h with
       | Some _ => Done tt (State (<[h := p]> (handles s)) (deleted s))
       | None => Fault DeadHandle
       end.

(** The member initialiser [native_ptr_(p)] of a constructor: the
    lifetime of the handle at [h] begins. *)
Definition init_member (h : loc) (p : addr) : M unit :=
  λ s, Done tt (State (<[h := p]> (handles s)) (deleted s)).

(** The storage of the handle at [h] goes away once its destructor
    body has returned. *)
Definition end_lifetime (h : loc) : M unit :=
  λ s, Done tt (State (delete h (handles s)) (deleted s)).

(** [delete p] for an element type whose destructor touches no
    handle: nothing for [nullptr], otherwise the object at [p] is
    destroyed.  Objects that themselves hold handles are the subject
    of [nested.delete_object] below. *)
Definition delete_object (p : addr) : M unit :=
  λ s, if decide (p = nullptr) then Done tt s
       else Done tt (State (handles s) (deleted s ++ [p])).

(** An assertion on a condition evaluated at run time.  The members
    that use it below are the source's members with their check read
    as such an assertion; the checks as the source spells them, with
    [static_assert], are in [as_written]. *)
Definition assertion (b : bool) : M unit :=
  if b then mret tt else fail AssertionFailed.

(** A location for a temporary or a by-value parameter: one that no
    live handle occupies. *)
Definition fresh_loc : M loc :=
  λ s, Done (fresh (dom (handles s))) s.

(** ** The class [unique_ptr<T>] *)

Module unique_ptr.

(** [unique_ptr() noexcept : native_ptr_(nullptr) {}] *)
Definition ctor_default (this : loc) : M unit :=
  init_member this nullptr.

(** [explicit unique_ptr(T *ptr) noexcept : native_ptr_(ptr) {}] *)
Definition ctor_ptr (this : loc) (ptr : addr) : M unit :=
  init_member this ptr.

(** [unique_ptr(const unique_ptr &ptr) noexcept : native_ptr_(ptr.native_ptr_)
    { const_cast<unique_ptr &>(ptr).native_ptr_ = nullptr; }] *)
Definition ctor_copy (this ptr : loc) : M unit :=
  p ← load ptr;
  init_member this p;;
  store ptr nullptr.

(** [void destroy() { delete native_ptr_; native_ptr_ = nullptr; }] *)
Definition destroy (this : loc) : M unit :=
  p ← load this;
  delete_object p;;
  store this nullptr.

(** [~unique_ptr() noexcept { destroy(); }], after which the handle
    is gone. *)
Definition dtor (this : loc) : M unit :=
  destroy this;;
  end_lifetime this.

(** [void swap(unique_ptr &ptr)] *)
Definition swap (this ptr : loc) : M unit :=
  temp ← load this;
  p ← load ptr;
  store this p;;
  store ptr temp.

(** The body of [unique_ptr &operator=(unique_ptr ptr)]: [ptr] is
    the by-value parameter, a handle of its own; the result is
    [*this]. *)
Definition operator_assign (this ptr : loc) : M loc :=
  swap this ptr;;
  mret this.

(** The statement [dst = src;] for an lvalue [src]: the parameter is
    copy-constructed from [src], the body runs, and the parameter is
    destroyed when the statement is over.  An assignment that is part
    of a larger expression is [assign_call] below. *)
Definition assign (dst src : loc) : M loc :=
  param ← fresh_loc;
  ctor_copy param src;;
  r ← operator_assign dst param;
  dtor param;;
  mret r.

(** [void reset() noexcept { destroy(); }] *)
Definition reset (this : loc) : M unit :=
  destroy this.

(** [void reset(T *ptr)], the check read as a run-time assertion. *)
Definition reset_ptr (this : loc) (ptr : addr) : M unit :=
  p ← load this;
  assertion ((nullptr =? ptr) || negb (p =? ptr));;
  destroy this;;
  store this ptr.

(** [T *release() noexcept] *)
Definition release (this : loc) : M addr :=
  temp ← load this;
  store this nullptr;;
  mret temp.

(** [explicit operator bool() const] *)
Definition operator_bool (this : loc) : M bool :=
  p ← load this;
  mret (negb (nullptr =? p)).

(** [T &operator*() const], the check read as a run-time assertion:
    the result is the object the pointer designates, given by its
    address. *)
Definition operator_deref (this : loc) : M addr :=
  p ← load this;
  assertion (negb (nullptr =? p));;
  mret p.

(** [T *operator->() const], the check read as a run-time assertion. *)
Definition operator_arrow (this : loc) : M addr :=
  p ← load this;
  assertion (negb (nullptr =? p));;
  mret p.

(** [T *get() const] *)
Definition get (this : loc) : M addr :=
  load this.

End unique_ptr.

(** ** Comparison operators

    Free function templates over [unique_ptr<T>] and [unique_ptr<U>];
    each compares the results of the two [get()] calls.  Here [T] and
    [U] are one type, so the two pointers are compared as they are
    stored; [related] below has the conversion that two related
    element types bring in. *)

Definition operator_eq (l r : loc) : M bool :=
  a ← unique_ptr.get l; b ← unique_ptr.get r; mret (a =? b).

Definition operator_ne (l r : loc) : M bool :=
  a ← unique_ptr.get l; b ← unique_ptr.get r; mret (negb (a =? b)).

Definition operator_le (l r : loc) : M bool :=
  a ← unique_ptr.get l; b ← unique_ptr.get r; mret (a <=? b).

Definition operator_lt (l r : loc) : M bool :=
  a ← unique_ptr.get l; b ← unique_ptr.get r; mret (a <? b).

Definition operator_ge (l r : loc) : M bool :=
  a ← unique_ptr.get l; b ← unique_ptr.get r; mret (b <=? a).

Definition operator_gt (l r : loc) : M bool :=
  a ← unique_ptr.get l; b ← unique_ptr.get r; mret (b <? a).

(** What a [delete p] adds to the history. *)
Definition destroyed (p : addr) : list addr :=
  if decide (p = nullptr) then [] else [p].

(** ** Client programs

    A client is a sequence of calls on handles.  [exec] runs one call
    and drops its value. *)

Inductive comparison_op := OpEq | OpNe | OpLe | OpLt | OpGe | OpGt.

Inductive call :=
  | Call_ctor_default (this : loc)
  | Call_ctor_ptr (this : loc) (ptr : addr)
  | Call_ctor_copy (this src : loc)
  | Call_dtor (this : loc)
  | Call_assign (dst src : loc)
  | Call_reset (this : loc)
  | Call_reset_ptr (this : loc) (ptr : addr)
  | Call_swap (this other : loc)
  | Call_release (this : loc)
  | Call_bool (this : loc)
  | Call_deref (this : loc)
  | Call_arrow (this : loc)
  | Call_get (this : loc)
  | Call_compare (op : comparison_op) (l r : loc).

Definition compare (op : comparison_op) : loc → loc → M bool :=
  match op with
  | OpEq => operator_eq
  | OpNe => operator_ne
  | OpLe => operator_le
  | OpLt => operator_lt
  | OpGe => operator_ge
  | OpGt => operator_gt
  end.

Definition drop {A} (m : M A) : M unit := m;; mret tt.

Definition exec (c : call) : M unit :=
  match c with
  | Call_ctor_default this => unique_ptr.ctor_default this
  | Call_ctor_ptr this ptr => unique_ptr.ctor_ptr this ptr
  | Call_ctor_copy this src => unique_ptr.ctor_copy this src
  | Call_dtor this => unique_ptr.dtor this
  | Call_assign dst src => drop (unique_ptr.assign dst src)
  | Call_reset this => unique_ptr.reset this
  | Call_reset_ptr this ptr => unique_ptr.reset_ptr this ptr
  | Call_swap this other => unique_ptr.swap this other
  | Call_release this => drop (unique_ptr.release this)
  | Call_bool this => drop (unique_ptr.operator_bool this)
  | Call_deref this => drop (unique_ptr.operator_deref this)
  | Call_arrow this => drop (unique_ptr.operator_arrow this)
  | Call_get this => drop (unique_ptr.get this)
  | Call_compare op l r => drop (compare op l r)
  end.

(** The object at [p] is alive and no handle owns it. *)
Definition unowned (p : addr) (s : state) : Prop :=
  (p ∉ deleted s) ∧ map_Forall (λ _ q, q ≠ p) (handles s).

#[global] Instance unowned_dec p s : Decision (unowned p s).
Proof. unfold unowned. apply _. Defined.

(** What the caller owes.  A raw address handed to a handle, by the
    constructor from a pointer or by [reset] with an argument, is
    [nullptr] or the address of a live object that no handle owns. *)
Definition contract (c : call) (s : state) : Prop :=
  match c with
  | Call_ctor_ptr _ ptr | Call_reset_ptr _ ptr => ptr = nullptr ∨ unowned ptr s
  | _ => True
  end.

(** The handle at [h] is within its lifetime. *)
Definition alive (h : loc) (s : state) : Prop := is_Some (handles s !! h).

(** Every handle the call reads or writes is within its lifetime; a
    constructor may run on any storage. *)
Definition handles_alive (c : call) (s : state) : Prop :=
  match c with
  | Call_ctor_default _ | Call_ctor_ptr _ _ => True
  | Call_ctor_copy _ src => alive src s
  | Call_dtor this | Call_reset this | Call_reset_ptr this _
  | Call_release this | Call_bool this | Call_deref this
  | Call_arrow this | Call_get this => alive this s
  | Call_assign l r | Call_swap l r | Call_compare _ l r => alive l s ∧ alive r s
  end.

#[global] Instance contract_dec c s : Decision (contract c s).
Proof. destruct c; simpl; apply _. Defined.

(** The states a client reaches from the initial one, every call run
    to completion and made in a state where [C] allows it. *)
Inductive reachable_under (C : call → state → Prop) : state → Prop :=
  | reachable_init : reachable_under C init
  | reachable_call s c s' :
      reachable_under C s → C c s → run (exec c) s = Done tt s' →
      reachable_under C s'.

(** Reachable by calls made within their contracts. *)
Definition reachable : state → Prop := reachable_under contract.

(** Reachable by any calls at all. *)
Definition reachable_unchecked : state → Prop := reachable_under (λ _ _, True).

(** Ownership invariant: no object was destroyed twice, no handle
    holds a destroyed object, and no two handles hold one object. *)
Record ownership_inv (s : state) : Prop := OwnershipInv {
  inv_nodup : NoDup (deleted s);
  inv_alive : ∀ h p, handles s !! h = Some p → p ≠ nullptr → p ∉ deleted s;
  inv_exclusive : ∀ h1 h2 p,
    handles s !! h1 = Some p → handles s !! h2 = Some p → p ≠ nullptr → h1 = h2
}.

(** ** Comparison of handles over related element types

    For [unique_ptr<T>] against [unique_ptr<U>] the built-in
    comparison of [T*] with [U*] first converts both operands to their
    common pointer type.  Such a conversion takes [nullptr] to
    [nullptr] and an object to one of its base subobjects, which may
    lie at another address. *)

Record conversion := Conversion {
  convert :> addr → addr;
  convert_null : convert nullptr = nullptr;
  convert_nonnull : ∀ p, p ≠ nullptr → convert p ≠ nullptr
}.

(** No conversion: the operand already has the common type. *)
Definition same_type : conversion :=
  Conversion (λ p, p) eq_refl (λ p Hp, Hp).

(** Derived-to-base conversion for a base subobject that lies
    [offset] bytes into the derived object. *)
Definition base_address (offset : N) (p : addr) : addr :=
  if decide (p = nullptr) then nullptr else p + offset.

Lemma base_address_null offset : base_address offset nullptr = nullptr.
Proof. reflexivity. Qed.

Lemma base_address_nonnull offset p :
  p ≠ nullptr → base_address offset p ≠ nullptr.
Proof.
  intros Hp. unfold base_address. rewrite decide_False by done.
  unfold nullptr in *. lia.
Qed.

Definition to_base (offset : N) : conversion :=
  Conversion (base_address offset) (base_address_null offset)
             (base_address_nonnull offset).

Module related.
Section operators.
Variables cl cr : conversion.

Definition operator_eq (l r : loc) : M bool :=
  a ← unique_ptr.get l; b ← unique_ptr.get r; mret (cl a =? cr b).

Definition operator_ne (l r : loc) : M bool :=
  a ← unique_ptr.get l; b ← unique_ptr.get r; mret (negb (cl a =? cr b)).

Definition operator_le (l r : loc) : M bool :=
  a ← unique_ptr.get l; b ← unique_ptr.get r; mret (cl a <=? cr b).

Definition operator_lt (l r : loc) : M bool :=
  a ← unique_ptr.get l; b ← unique_ptr.get r; mret (cl a <? cr b).

Definition operator_ge (l r : loc) : M bool :=
  a ← unique_ptr.get l; b ← unique_ptr.get r; mret (cr b <=? cl a).

Definition operator_gt (l r : loc) : M bool :=
  a ← unique_ptr.get l; b ← unique_ptr.get r; mret (cr b <? cl a).

End operators.
End related.

(** ** The assertions as written

    [reset] with an argument, [operator*] and [operator->] state their
    check with [static_assert].  Its condition has to be a constant
    expression;
    when it is not, or is false, the member is ill-formed and a
    program that calls it is not translated. *)

(** What the two conditions are made of. *)
Inductive operand :=
  | Nullptr      (* the literal [nullptr] *)
  | Param        (* the function parameter [ptr] *)
  | Member.      (* the data member [native_ptr_] *)

Inductive condition :=
  | Cond_eq (a b : operand)
  | Cond_ne (a b : operand)
  | Cond_or (c d : condition).

(** [(nullptr == ptr) || (native_ptr_ != ptr)] *)
Definition reset_condition : condition :=
  Cond_or (Cond_eq Nullptr Param) (Cond_ne Member Param).

(** [nullptr != native_ptr_] *)
Definition deref_condition : condition :=
  Cond_ne Nullptr Member.

(** The value of a condition at run time, in a call with argument
    [ptr] on a handle whose member holds [member]. *)
Definition operand_value (ptr member : addr) (o : operand) : addr :=
  match o with
  | Nullptr => nullptr
  | Param => ptr
  | Member => member
  end.

Fixpoint holds (ptr member : addr) (c : condition) : bool :=
  match c with
  | Cond_eq a b => operand_value ptr member a =? operand_value ptr member b
  | Cond_ne a b =>
      negb (operand_value ptr member a =? operand_value ptr member b)
  | Cond_or c d => holds ptr member c || holds ptr member d
  end.

(** The value of a condition as a constant expression: a parameter
    and a data member have none; [||] does not look at its right
    operand when the left one is true. *)
Definition operand_constant (o : operand) : option addr :=
  match o with
  | Nullptr => Some nullptr
  | Param | Member => None
  end.

Fixpoint constant (c : condition) : option bool :=
  match c with
  | Cond_eq a b =>
      match operand_constant a, operand_constant b with
      | Some x, Some y => Some (x =? y)
      | _, _ => None
      end
  | Cond_ne a b =>
      match operand_constant a, operand_constant b with
      | Some x, Some y => Some (negb (x =? y))
      | _, _ => None
      end
  | Cond_or c d =>
      match constant c with
      | Some true => Some true
      | Some false => constant d
      | None => None
      end
  end.

Inductive translation (A : Type) :=
  | Translated (a : A)
  | IllFormed.
Arguments Translated {A} a.
Arguments IllFormed {A}.

(** [static_assert(c, ...)] in front of the rest of a function body. *)
Definition static_assert {A} (c : condition) (rest : A) : translation A :=
  match constant c with
  | Some true => Translated rest
  | Some false | None => IllFormed
  end.

Module as_written.

(** [void reset(T *ptr) { static_assert(...); destroy(); native_ptr_ = ptr; }] *)
Definition reset_ptr : translation (loc → addr → M unit) :=
  static_assert reset_condition
    (λ this ptr, unique_ptr.destroy this;; store this ptr).

(** [T &operator*() const { static_assert(...); return *native_ptr_; }] *)
Definition operator_deref : translation (loc → M addr) :=
  static_assert deref_condition (λ this, load this).

(** [T *operator->() const { static_assert(...); return native_ptr_; }] *)
Definition operator_arrow : translation (loc → M addr) :=
  static_assert deref_condition (λ this, load this).

End as_written.

(** ** Assignment inside a larger expression

    The by-value parameter of [operator=] may live until the end of
    the full-expression that contains the call.  [assign_call] is the
    call up to its return, with the parameter still alive; it gives
    the handle assigned to and the location of the parameter. *)
Definition assign_call (dst src : loc) : M (loc * loc) :=
  param ← fresh_loc;
  unique_ptr.ctor_copy param src;;
  r ← unique_ptr.operator_assign dst param;
  mret (r, param).

(** [a = (b = c);] with both parameters alive to the end of the
    statement and destroyed there, the later one first. *)
Definition chained_assign (a b c : loc) : M loc :=
  inner ← assign_call b c;
  outer ← assign_call a inner.1;
  unique_ptr.dtor outer.2;;
  unique_ptr.dtor inner.2;;
  mret outer.1.

(** [a = (b = c);] when each parameter is destroyed as its call
    returns. *)
Definition chained_assign_on_return (a b c : loc) : M loc :=
  r ← unique_ptr.assign b c;
  unique_ptr.assign a r.

(** ** Objects that hold handles

    When the element type has [unique_ptr] members, [delete p] runs
    the destructor of the object at [p] and then the destructors of
    the handles stored in it, the last declared first; each of these
    deletes what it owns in turn.  [members p] lists the locations of
    the handles stored in the object at [p], in declaration order.
    The nesting of destructor calls is bounded by [fuel]. *)

Fixpoint for_each {A} (l : list A) (body : A → M unit) : M unit :=
  match l with
  | [] => mret tt
  | x :: rest => body x;; for_each rest body
  end.

(** The object at [p] enters the history of destroyed objects. *)
Definition record_destroyed (p : addr) : M unit :=
  λ s, Done tt (State (handles s) (deleted s ++ [p])).

(** [destroy()] and the destructor over a given [delete]. *)
Definition destroy_with (del : addr → M unit) (this : loc) : M unit :=
  p ← load this;
  del p;;
  store this nullptr.

Definition dtor_with (del : addr → M unit) (this : loc) : M unit :=
  destroy_with del this;;
  end_lifetime this.

Module nested.
Section layout.
Variable members : addr → list loc.

Fixpoint delete_object (fuel : nat) (p : addr) : M unit :=
  if decide (p = nullptr) then mret tt
  else match fuel with
       | O => fail OutOfFuel
       | S fuel' =>
           record_destroyed p;;
           for_each (rev (members p)) (dtor_with (delete_object fuel'))
       end.

Definition destroy (fuel : nat) (this : loc) : M unit :=
  destroy_with (delete_object fuel) this.

Definition dtor (fuel : nat) (this : loc) : M unit :=
  dtor_with (delete_object fuel) this.

(** The statement [dst = src;], as [unique_ptr.assign]. *)
Definition assign (fuel : nat) (dst src : loc) : M loc :=
  param ← fresh_loc;
  unique_ptr.ctor_copy param src;;
  r ← unique_ptr.operator_assign dst param;
  dtor fuel param;;
  mret r.

(** The reference program for transfer-assignment, after the words of
    the specification: destroy whatever [dst] currently owns, then
    transfer-construct from [src] into [dst], leaving [src] empty.
    The value is the handle assigned to. *)
Definition assign_reference (fuel : nat) (dst src : loc) : M loc :=
  destroy fuel dst;;
  unique_ptr.ctor_copy dst src;;
  mret dst.

End layout.
End nested.

(** The state with the member of the handle at [h] set to [v]. *)
Definition with_handle (h : loc) (v : addr) (s : state) : state :=
  State (<[h := v]> (handles s)) (deleted s).

(** A computation never brings a handle to life. *)
Definition keeps_dead (m : M unit) : Prop :=
  ∀ s s1 h, run m s = Done tt s1 →
    handles s !! h = None → handles s1 !! h = None.

(** A computation does not depend on a handle that it finds dead or
    leaves alive. *)
Definition framed (m : M unit) : Prop :=
  ∀ s s1 h v, run m s = Done tt s1 →
    is_Some (handles s1 !! h) ∨ handles s !! h = None →
    run m (with_handle h v s) = Done tt (with_handle h v s1).

(** ** Sample states *)

(** Two live handles: the one at location 1 owns the object at 5, the
    one at location 2 the object at 7. *)
Definition two_handles : state :=
  State (<[1%nat := 5]> (<[2%nat := 7]> ∅)) [].

(** The state after [unique_ptr a(5); unique_ptr b(a);] and the end of
    the scope of [b]. *)
Definition after_scope : state := State (<[1%nat := nullptr]> ∅) [5].

(** The state after [unique_ptr a(5); unique_ptr b(a);]: the handle at
    location 1 has been moved from, the one at location 2 owns the
    object at 5. *)
Definition moved_from : state :=
  State (<[1%nat := nullptr]> (<[2%nat := 5]> ∅)) [].

(** [two_handles] after [release()] on the handle at location 1. *)
Definition after_release : state :=
  State (<[1%nat := nullptr]> (handles two_handles)) [].

(** A list of two nodes: the handle at location 1 owns the node at
    10, whose [next] handle, at location 2, owns the node at 20, whose
    [next] handle, at location 3, is empty.  A second list has its
    head at location 4, owning the node at 30 with its empty [next]
    at location 5. *)
Definition list_members (p : addr) : list loc :=
  if decide (p = 10) then [2%nat]
  else if decide (p = 20) then [3%nat]
  else if decide (p = 30) then [5%nat]
  else [].

Definition two_lists : state :=
  State (<[1%nat := 10]> (<[2%nat := 20]> (<[3%nat := nullptr]>
          (<[4%nat := 30]> (<[5%nat := nullptr]> ∅))))) [].

(** Two handles of related element types that own one object: the
    handle at location 1 holds the address 20 of the base subobject,
    the handle at location 2 the address 16 of the derived object,
    whose base lies 4 bytes in. *)
Definition base_and_derived : state :=
  State (<[1%nat := 20]> (<[2%nat := 16]> ∅)) [].

(** The state after [unique_ptr a(5); unique_ptr b(7);] and the end of
    the lifetime of [a]: the handle at location 2 owns the object at
    7, the object at 5 has been destroyed. *)
Definition one_destroyed : state := State (<[2%nat := 7]> ∅) [5].

(** Three live handles, owning the objects at 5, 7 and 9. *)
Definition three_handles : state :=
  State (<[1%nat := 5]> (<[2%nat := 7]> (<[3%nat := 9]> ∅))) [].

(** * Properties *)

(** ** Running the primitives *)

Lemma state_eq (s1 s2 : state) :
  handles s1 = handles s2 → deleted s1 = deleted s2 → s1 = s2.
Proof. destruct s1, s2; simpl; congruence. Qed.

Section run_rules.
Context {A B : Type}.

Lemma run_bind (m : M A) (k : A → M B) s :
  run (m ≫= k) s =
  match run m s with Done a s' => run (k a) s' | Fault f => Fault f end.
Proof. reflexivity. Qed.

Lemma run_bind_done (m : M A) (k : A → M B) s a s' :
  run m s = Done a s' → run (m ≫= k) s = run (k a) s'.
Proof. intros H. rewrite run_bind, H. reflexivity. Qed.

Lemma run_bind_fault (m : M A) (k : A → M B) s f :
  run m s = Fault f → run (m ≫= k) s = Fault f.
Proof. intros H. rewrite run_bind, H. reflexivity. Qed.

Lemma run_ret (a : A) s : run (mret a) s = Done a s.
Proof. reflexivity. Qed.
End run_rules.

Lemma run_load h s p :
  handles s !! h = Some p → run (load h) s = Done p s.
Proof. unfold run, load. intros ->. reflexivity. Qed.

Lemma run_load_dead h s :
  handles s !! h = None → run (load h) s = Fault DeadHandle.
Proof. unfold run, load. intros ->. reflexivity. Qed.

Lemma run_store h q s :
  is_Some (handles s !! h) →
  run (store h q) s = Done tt (State (<[h := q]> (handles s)) (deleted s)).
Proof. unfold run, store. intros [p ->]. reflexivity. Qed.

Lemma run_store_dead h q s :
  handles s !! h = None → run (store h q) s = Fault DeadHandle.
Proof. unfold run, store. intros ->. reflexivity. Qed.

Lemma run_init_member h q s :
  run (init_member h q) s = Done tt (State (<[h := q]> (handles s)) (deleted s)).
Proof. reflexivity. Qed.

Lemma run_end_lifetime h s :
  run (end_lifetime h) s = Done tt (State (delete h (handles s)) (deleted s)).
Proof. reflexivity. Qed.

Lemma run_delete_object p s :
  run (delete_object p) s = Done tt (State (handles s) (deleted s ++ destroyed p)).
Proof.
  unfold run, delete_object, destroyed. case_decide.
  - rewrite app_nil_r. by destruct s.
  - reflexivity.
Qed.

Lemma run_fresh_loc s :
  run fresh_loc s = Done (fresh (dom (handles s))) s.
Proof. reflexivity. Qed.

Lemma fresh_loc_dead (m : gmap loc addr) : m !! fresh (dom m) = None.
Proof. apply not_elem_of_dom, is_fresh. Qed.

Lemma fresh_loc_ne (m : gmap loc addr) h :
  is_Some (m !! h) → fresh (dom m) ≠ h.
Proof. intros Hh Heq. rewrite <- Heq, fresh_loc_dead in Hh. by destruct Hh. Qed.

(** Symbolic execution: push [run] through the primitive at the head
    of the computation, with the lookups known in the context. *)
Ltac run_prim :=
  first
    [ apply run_load; simplify_map_eq; done
    | apply run_store; simplify_map_eq; eauto
    | apply run_init_member
    | apply run_end_lifetime
    | apply run_delete_object
    | apply run_fresh_loc
    | apply run_ret ].

Ltac run_step :=
  lazymatch goal with
  | |- context [run (_ ≫= _) _] => erewrite run_bind_done; [| run_prim]
  | |- context [run (mret _) _] => rewrite run_ret
  | |- context [run (load _) _] => erewrite run_load by (simplify_map_eq; done)
  | |- context [run (store _ _) _] => erewrite run_store by (simplify_map_eq; eauto)
  | |- context [run (init_member _ _) _] => rewrite run_init_member
  | |- context [run (end_lifetime _) _] => rewrite run_end_lifetime
  | |- context [run (delete_object _) _] => rewrite run_delete_object
  end;
  cbn [handles deleted].

Ltac run_all := repeat run_step.

(** ** Effect of each member function *)

Section effects.
Import unique_ptr.
Implicit Types (s : state) (h a b : loc) (p q : addr).

Lemma run_destroy h s p :
  handles s !! h = Some p →
  run (destroy h) s =
  Done tt (State (<[h := nullptr]> (handles s)) (deleted s ++ destroyed p)).
Proof. intros Hh. unfold destroy. run_all. reflexivity. Qed.

Lemma run_ctor_copy this src s p :
  handles s !! src = Some p →
  run (ctor_copy this src) s =
  Done tt (State (<[src := nullptr]> (<[this := p]> (handles s))) (deleted s)).
Proof.
  intros Hs. unfold ctor_copy. run_step. run_step.
  rewrite run_store; [done |]. cbn [handles].
  rewrite lookup_insert. case_decide; eauto.
Qed.

Lemma run_dtor h s p :
  handles s !! h = Some p →
  run (dtor h) s =
  Done tt (State (delete h (handles s)) (deleted s ++ destroyed p)).
Proof.
  intros Hh. unfold dtor.
  erewrite run_bind_done by (by apply run_destroy).
  run_all. by rewrite delete_insert_eq.
Qed.

Lemma run_swap a b s pa pb :
  handles s !! a = Some pa → handles s !! b = Some pb →
  run (swap a b) s =
  Done tt (State (<[b := pa]> (<[a := pb]> (handles s))) (deleted s)).
Proof.
  intros Ha Hb. unfold swap. run_step. run_step. run_step.
  rewrite run_store; [done |]. cbn [handles].
  rewrite lookup_insert. case_decide; eauto.
Qed.

Lemma run_reset h s p :
  handles s !! h = Some p →
  run (reset h) s =
  Done tt (State (<[h := nullptr]> (handles s)) (deleted s ++ destroyed p)).
Proof. apply run_destroy. Qed.

Lemma run_release h s p :
  handles s !! h = Some p →
  run (release h) s =
  Done p (State (<[h := nullptr]> (handles s)) (deleted s)).
Proof. intros Hh. unfold release. run_all. reflexivity. Qed.

Lemma run_get h s p :
  handles s !! h = Some p → run (get h) s = Done p s.
Proof. apply run_load. Qed.

Lemma run_operator_bool h s p :
  handles s !! h = Some p →
  run (operator_bool h) s = Done (negb (nullptr =? p)) s.
Proof. intros Hh. unfold operator_bool. run_all. reflexivity. Qed.

Lemma run_assertion_true s : run (assertion true) s = Done tt s.
Proof. reflexivity. Qed.

Lemma run_assertion_false s : run (assertion false) s = Fault AssertionFailed.
Proof. reflexivity. Qed.

Lemma run_reset_ptr h s p q :
  handles s !! h = Some p →
  run (reset_ptr h q) s =
  if (nullptr =? q) || negb (p =? q)
  then Done tt (State (<[h := q]> (handles s)) (deleted s ++ destroyed p))
  else Fault AssertionFailed.
Proof.
  intros Hh. unfold reset_ptr. run_step.
  destruct ((nullptr =? q) || negb (p =? q)).
  - erewrite run_bind_done by apply run_assertion_true.
    erewrite run_bind_done by (by apply run_destroy).
    run_all. by rewrite insert_insert_eq.
  - by erewrite run_bind_fault by apply run_assertion_false.
Qed.

Lemma run_operator_deref h s p :
  handles s !! h = Some p →
  run (operator_deref h) s =
  if negb (nullptr =? p) then Done p s else Fault AssertionFailed.
Proof.
  intros Hh. unfold operator_deref. run_step.
  destruct (negb (nullptr =? p)).
  - erewrite run_bind_done by apply run_assertion_true. by run_all.
  - by erewrite run_bind_fault by apply run_assertion_false.
Qed.

Lemma run_operator_arrow h s p :
  handles s !! h = Some p →
  run (operator_arrow h) s =
  if negb (nullptr =? p) then Done p s else Fault AssertionFailed.
Proof.
  intros Hh. unfold operator_arrow. run_step.
  destruct (negb (nullptr =? p)).
  - erewrite run_bind_done by apply run_assertion_true. by run_all.
  - by erewrite run_bind_fault by apply run_assertion_false.
Qed.

Lemma run_operator_assign this param s pa pb :
  handles s !! this = Some pa → handles s !! param = Some pb →
  run (operator_assign this param) s =
  Done this (State (<[param := pa]> (<[this := pb]> (handles s))) (deleted s)).
Proof.
  intros Ha Hb. unfold operator_assign.
  erewrite run_bind_done by (by eapply run_swap). by run_all.
Qed.

(** [dst = src] on two different live handles. *)
Lemma run_assign dst src s pd ps :
  dst ≠ src →
  handles s !! dst = Some pd → handles s !! src = Some ps →
  run (assign dst src) s =
  Done dst (State (<[src := nullptr]> (<[dst := ps]> (handles s)))
                  (deleted s ++ destroyed pd)).
Proof.
  intros Hne Hd Hs. unfold assign.
  pose proof (fresh_loc_dead (handles s)) as Hfresh.
  assert (fresh (dom (handles s)) ≠ dst) as Hfd by (apply fresh_loc_ne; eauto).
  assert (fresh (dom (handles s)) ≠ src) as Hfs by (apply fresh_loc_ne; eauto).
  run_step. set (param := fresh (dom (handles s))) in *.
  erewrite run_bind_done by (by apply run_ctor_copy).
  erewrite run_bind_done
    by (eapply run_operator_assign; cbn [handles]; simplify_map_eq; done).
  erewrite run_bind_done
    by (eapply run_dtor; cbn [handles]; simplify_map_eq; done).
  run_all. f_equal. apply state_eq; cbn [handles deleted]; [| done].
  apply map_eq; intros i.
  destruct (decide (i = param)), (decide (i = dst)), (decide (i = src));
    by simplify_map_eq.
Qed.

(** [a = a]. *)
Lemma run_assign_self a s p :
  handles s !! a = Some p →
  run (assign a a) s = Done a s.
Proof.
  intros Ha. unfold assign.
  pose proof (fresh_loc_dead (handles s)) as Hfresh.
  assert (fresh (dom (handles s)) ≠ a) as Hfa by (apply fresh_loc_ne; eauto).
  run_step. set (param := fresh (dom (handles s))) in *.
  erewrite run_bind_done by (by apply run_ctor_copy).
  erewrite run_bind_done
    by (eapply run_operator_assign; cbn [handles]; simplify_map_eq; done).
  erewrite run_bind_done
    by (eapply run_dtor; cbn [handles]; simplify_map_eq; done).
  run_all. f_equal. apply state_eq; cbn [handles deleted].
  - apply map_eq; intros i.
    destruct (decide (i = param)), (decide (i = a)); by simplify_map_eq.
  - unfold destroyed. rewrite decide_True by done. apply app_nil_r.
Qed.

(** The shape shared by the six comparison operators. *)
Lemma run_compare (f : addr → addr → bool) l r s p q :
  handles s !! l = Some p → handles s !! r = Some q →
  run (x ← get l; y ← get r; mret (f x y)) s = Done (f p q) s.
Proof.
  intros Hl Hr.
  erewrite run_bind_done by (by apply run_get).
  erewrite run_bind_done by (by apply run_get). done.
Qed.
End effects.

(** ** Transfer construction *)

Section claims.
Import unique_ptr.
Implicit Types (s : state) (h a b l r dst src : loc) (p q x : addr).

(** C2.  When handle [a] holds address [p] and a new handle [b] is
    transfer-constructed from [a], then [b.get()] is [p], [a.get()]
    is the empty sentinel, and running the destructor of [a]
    afterwards destroys nothing: the history of destroyed objects is
    as it was, and [b] still holds [p]. *)
Theorem transfer_construct_takes_address s a b p :
  handles s !! a = Some p →
  handles s !! b = None →
  ∃ s1 s2,
    run (ctor_copy b a) s = Done tt s1 ∧
    run (get b) s1 = Done p s1 ∧
    run (get a) s1 = Done nullptr s1 ∧
    deleted s1 = deleted s ∧
    run (dtor a) s1 = Done tt s2 ∧
    deleted s2 = deleted s ∧
    run (get b) s2 = Done p s2.
Proof.
  intros Ha Hb.
  assert (a ≠ b) as Hab by congruence.
  eexists _, _. split; [by apply run_ctor_copy |].
  split; [apply run_get; cbn [handles]; by simplify_map_eq |].
  split; [apply run_get; cbn [handles]; by simplify_map_eq |].
  split; [done |].
  split; [eapply run_dtor; cbn [handles]; by simplify_map_eq |].
  split.
  - cbn [deleted]. unfold destroyed. rewrite decide_True by done.
    apply app_nil_r.
  - apply run_get; cbn [handles]. by simplify_map_eq.
Qed.

(** C4.  Assigning a handle [a] to itself through the
    transfer-assignment operator changes nothing: [a] holds the
    address it held before and the history of destroyed objects is
    unchanged. *)
Theorem self_assign_is_noop s a p :
  handles s !! a = Some p →
  run (assign a a) s = Done a s ∧
  run (assign a a ≫= get) s = Done p s.
Proof.
  intros Ha. split; [by eapply run_assign_self |].
  erewrite run_bind_done by (by eapply run_assign_self).
  by apply run_get.
Qed.

(** C6.  For every live handle, empty or not, [release()] returns
    the held address and leaves the handle empty; the history of
    destroyed objects and every other handle are unchanged. *)
Theorem release_returns_address s h p :
  handles s !! h = Some p →
  ∃ s',
    run (release h) s = Done p s' ∧
    handles s' = <[h := nullptr]> (handles s) ∧
    run (get h) s' = Done nullptr s' ∧
    deleted s' = deleted s.
Proof.
  intros Hh. eexists. split; [by apply run_release |].
  split; [done |]. split; [| done].
  apply run_get. cbn [handles]. by simplify_map_eq.
Qed.

(** C7.  For every pair of live handles [a] and [b], [swap]
    exchanges their two addresses, leaves every other handle as it
    was, creates and removes no handle, destroys nothing, and
    applying it twice restores the state. *)
Theorem swap_exchanges_and_is_involutive s a b pa pb :
  handles s !! a = Some pa →
  handles s !! b = Some pb →
  (∃ s',
     run (swap a b) s = Done tt s' ∧
     handles s' !! a = Some pb ∧
     handles s' !! b = Some pa ∧
     (∀ h, h ≠ a → h ≠ b → handles s' !! h = handles s !! h) ∧
     dom (handles s') = dom (handles s) ∧
     deleted s' = deleted s) ∧
  run (swap a b;; swap a b) s = Done tt s.
Proof.
  intros Ha Hb. split.
  - eexists. split; [by eapply run_swap |]. cbn [handles deleted].
    split; [| split; [| split; [| split]]].
    + destruct (decide (a = b)); by simplify_map_eq.
    + by simplify_map_eq.
    + intros h ??. by simplify_map_eq.
    + apply set_eq. intros h. rewrite !elem_of_dom, !lookup_insert.
      repeat case_decide; simplify_eq; split; eauto.
    + done.
  - erewrite run_bind_done by (by eapply run_swap).
    rewrite (run_swap a b _ pb pa); cbn [handles deleted].
    + f_equal. apply state_eq; cbn [handles deleted]; [| done].
      apply map_eq. intros i.
      destruct (decide (i = a)), (decide (i = b)); by simplify_map_eq.
    + destruct (decide (a = b)); by simplify_map_eq.
    + by simplify_map_eq.
Qed.

(** C8.  [reset()] destroys the object the handle owns, if any, and
    leaves the handle empty; on a handle that is already empty it
    changes nothing (no object is destroyed); and a second [reset()]
    after the first has no further effect. *)
Theorem reset_destroys_and_is_idempotent s h p :
  handles s !! h = Some p →
  run (reset h) s =
    Done tt (State (<[h := nullptr]> (handles s)) (deleted s ++ destroyed p)) ∧
  (p ≠ nullptr → destroyed p = [p]) ∧
  (p = nullptr → run (reset h) s = Done tt s) ∧
  run (reset h;; reset h) s = run (reset h) s.
Proof.
  intros Hh. rewrite (run_reset h s p Hh).
  split; [done |]. split; [| split].
  - intros Hp. unfold destroyed. by rewrite decide_False.
  - intros ->. f_equal. apply state_eq; cbn [handles deleted].
    + by apply insert_id.
    + apply app_nil_r.
  - erewrite run_bind_done by (by apply run_reset).
    rewrite (run_reset h _ nullptr) by (cbn [handles]; by simplify_map_eq).
    cbn [handles deleted]. rewrite insert_insert_eq.
    unfold destroyed at 2. rewrite decide_True by done.
    by rewrite app_nil_r.
Qed.

End claims.

(** ** The ownership invariant *)

Lemma elem_of_destroyed q p : q ∈ destroyed p ↔ q = p ∧ p ≠ nullptr.
Proof.
  unfold destroyed. destruct (decide (p = nullptr)) as [Hp | Hp].
  - rewrite elem_of_nil. tauto.
  - rewrite list_elem_of_singleton. tauto.
Qed.

Lemma NoDup_app_destroyed l p :
  NoDup l → (p ≠ nullptr → p ∉ l) → NoDup (l ++ destroyed p).
Proof.
  intros Hl Hp. unfold destroyed. case_decide.
  - by rewrite app_nil_r.
  - apply NoDup_app. split; [done |]. split.
    + intros q Hq Hq'. apply list_elem_of_singleton in Hq' as ->. by apply Hp.
    + apply NoDup_singleton.
Qed.

Lemma unowned_not_held p s h :
  unowned p s → handles s !! h ≠ Some p.
Proof. intros [_ Hf] Hh. by apply (Hf h p Hh). Qed.

Lemma ownership_inv_init : ownership_inv init.
Proof.
  split; cbn [init handles deleted].
  - apply NoDup_nil_2.
  - intros h p Hh. by rewrite lookup_empty in Hh.
  - intros h1 h2 p Hh. by rewrite lookup_empty in Hh.
Qed.

(** The invariant is kept by each elementary change of the state a
    member function is made of. *)
Section preservation.
Variable s : state.
Hypothesis Hinv : ownership_inv s.

(** A handle is bound to [nullptr] or to an unowned object. *)
Lemma inv_bind h p :
  p = nullptr ∨ unowned p s →
  ownership_inv (State (<[h := p]> (handles s)) (deleted s)).
Proof.
  destruct Hinv as [Hnd Hal Hex]. intros Hp.
  split; cbn [handles deleted]; [done | |].
  - intros h' q. rewrite lookup_insert. case_decide; [| by eauto].
    intros Hq Hn. simplify_eq. destruct Hp as [| [Hp _]]; done.
  - intros h1 h2 q. rewrite !lookup_insert.
    repeat case_decide; intros Hh1 Hh2 Hq; simplify_eq; try done.
    + destruct Hp as [| Hp]; [done |].
      by apply unowned_not_held with (h := h2) in Hp.
    + destruct Hp as [| Hp]; [done |].
      by apply unowned_not_held with (h := h1) in Hp.
    + by eauto.
Qed.

(** The lifetime of a handle ends. *)
Lemma inv_end_lifetime h :
  ownership_inv (State (delete h (handles s)) (deleted s)).
Proof.
  destruct Hinv as [Hnd Hal Hex].
  split; cbn [handles deleted]; [done | |].
  - intros h' q. rewrite lookup_delete. case_decide; [done | by eauto].
  - intros h1 h2 q. rewrite !lookup_delete.
    repeat case_decide; try done. by eauto.
Qed.

(** The address of [src] moves to [h] and [src] is emptied. *)
Lemma inv_move h src p :
  handles s !! src = Some p →
  ownership_inv (State (<[src := nullptr]> (<[h := p]> (handles s))) (deleted s)).
Proof.
  destruct Hinv as [Hnd Hal Hex]. intros Hs.
  split; cbn [handles deleted]; [done | |].
  - intros h' q. rewrite !lookup_insert.
    repeat case_decide; intros Hq Hn; simplify_eq; by eauto.
  - intros h1 h2 q. rewrite !lookup_insert.
    repeat case_decide; intros Hh1 Hh2 Hq; simplify_eq; try done.
    + by rewrite (Hex _ _ _ Hs Hh2 Hq) in *.
    + by rewrite (Hex _ _ _ Hs Hh1 Hq) in *.
    + by eauto.
Qed.

(** The object a handle owns is destroyed and the handle emptied. *)
Lemma inv_destroy h p :
  handles s !! h = Some p →
  ownership_inv (State (<[h := nullptr]> (handles s)) (deleted s ++ destroyed p)).
Proof.
  destruct Hinv as [Hnd Hal Hex]. intros Hh.
  split; cbn [handles deleted].
  - apply NoDup_app_destroyed; [done | by eauto].
  - intros h' q. rewrite lookup_insert, elem_of_app, elem_of_destroyed.
    case_decide; intros Hq Hn; simplify_eq.
    intros [Hd | [-> _]]; [by eapply Hal |].
    by rewrite (Hex _ _ _ Hh Hq Hn) in *.
  - intros h1 h2 q. rewrite !lookup_insert.
    repeat case_decide; intros Hh1 Hh2 Hq; simplify_eq; by eauto.
Qed.

(** Two handles exchange their addresses. *)
Lemma inv_swap a b pa pb :
  handles s !! a = Some pa → handles s !! b = Some pb →
  ownership_inv (State (<[b := pa]> (<[a := pb]> (handles s))) (deleted s)).
Proof.
  destruct Hinv as [Hnd Hal Hex]. intros Ha Hb.
  split; cbn [handles deleted]; [done | |].
  - intros h' q. rewrite !lookup_insert.
    repeat case_decide; intros Hq Hn; simplify_eq; by eauto.
  - intros h1 h2 q. rewrite !lookup_insert.
    repeat case_decide; intros Hh1 Hh2 Hq; simplify_eq; try done.
    + symmetry. by eapply Hex.
    + by rewrite (Hex _ _ _ Ha Hh2 Hq) in *.
    + by eapply Hex.
    + by rewrite (Hex _ _ _ Hb Hh2 Hq) in *.
    + by rewrite (Hex _ _ _ Ha Hh1 Hq) in *.
    + by rewrite (Hex _ _ _ Hb Hh1 Hq) in *.
    + by eauto.
Qed.

(** An unowned object stays unowned when some handle destroys what
    it owns. *)
Lemma unowned_destroy h p q :
  handles s !! h = Some p → unowned q s → q ≠ nullptr →
  unowned q (State (<[h := nullptr]> (handles s)) (deleted s ++ destroyed p)).
Proof.
  intros Hh [Hq Hf] Hn. split; cbn [handles deleted].
  - rewrite elem_of_app, elem_of_destroyed. intros [? | [-> _]]; [done |].
    by apply (Hf h p Hh).
  - apply map_Forall_insert_2; [congruence | done].
Qed.
End preservation.

Lemma run_drop {A} (m : M A) s a s' :
  run m s = Done a s' → run (drop m) s = Done tt s'.
Proof. intros H. unfold drop. by erewrite run_bind_done by exact H. Qed.

Lemma run_drop_inv {A} (m : M A) s s' :
  run (drop m) s = Done tt s' → ∃ a, run m s = Done a s'.
Proof.
  unfold drop. rewrite run_bind. destruct (run m s) as [a s1 | f]; [| done].
  rewrite run_ret. intros [= <-]. by exists a.
Qed.

Lemma run_compare_op op l r s p q :
  handles s !! l = Some p → handles s !! r = Some q →
  ∃ b, run (compare op l r) s = Done b s.
Proof.
  intros Hl Hr. destruct op; eexists.
  - exact (run_compare N.eqb l r s p q Hl Hr).
  - exact (run_compare (λ x y, negb (x =? y)) l r s p q Hl Hr).
  - exact (run_compare N.leb l r s p q Hl Hr).
  - exact (run_compare N.ltb l r s p q Hl Hr).
  - exact (run_compare (λ x y, y <=? x) l r s p q Hl Hr).
  - exact (run_compare (λ x y, y <? x) l r s p q Hl Hr).
Qed.

(** ** Calls on a handle outside its lifetime

    A call that runs to completion found every handle it names alive.
    The one exception is [dst = src] when the storage taken for the
    by-value parameter is that of [dst]; the call then acts on [src]
    alone. *)

Ltac dead_handle H :=
  exfalso; revert H;
  unfold drop, compare, operator_eq, operator_ne, operator_le, operator_lt,
    operator_ge, operator_gt, unique_ptr.ctor_copy, unique_ptr.dtor,
    unique_ptr.reset, unique_ptr.reset_ptr, unique_ptr.destroy,
    unique_ptr.operator_assign, unique_ptr.swap, unique_ptr.release,
    unique_ptr.operator_bool, unique_ptr.operator_deref,
    unique_ptr.operator_arrow, unique_ptr.get;
  repeat first [rewrite run_bind | erewrite run_load by eassumption];
  rewrite run_load_dead by (cbn [handles]; simplify_map_eq; done);
  discriminate.

Lemma assign_done dst src s a s' :
  run (unique_ptr.assign dst src) s = Done a s' →
  ∃ ps, handles s !! src = Some ps ∧
    (alive dst s ∨
     handles s !! dst = None ∧
     s' = State (<[src := nullptr]> (handles s)) (deleted s ++ destroyed ps)).
Proof.
  unfold unique_ptr.assign. rewrite run_bind, run_fresh_loc.
  pose proof (fresh_loc_dead (handles s)) as Hfresh.
  set (param := fresh (dom (handles s))) in *. intros Hrun.
  destruct (handles s !! src) as [ps |] eqn:Hs; [| dead_handle Hrun].
  exists ps. split; [done |].
  destruct (handles s !! dst) as [pd |] eqn:Hd; [left; by eexists | right].
  split; [done |].
  assert (param ≠ src) as Hps by congruence.
  assert (dst ≠ src) as Hds by congruence.
  erewrite run_bind_done in Hrun by (by apply run_ctor_copy).
  destruct (decide (dst = param)) as [-> | Hdp].
  - erewrite run_bind_done in Hrun
      by (eapply run_operator_assign; cbn [handles]; simplify_map_eq; done).
    erewrite run_bind_done in Hrun
      by (eapply run_dtor; cbn [handles]; simplify_map_eq; done).
    rewrite run_ret in Hrun. injection Hrun as _ <-.
    apply state_eq; cbn [handles deleted]; [| done].
    apply map_eq; intros i.
    destruct (decide (i = param)), (decide (i = src)); by simplify_map_eq.
  - dead_handle Hrun.
Qed.

Lemma completed_call_alive c s s' :
  run (exec c) s = Done tt s' →
  handles_alive c s ∨
  ∃ dst src ps,
    c = Call_assign dst src ∧ handles s !! src = Some ps ∧
    s' = State (<[src := nullptr]> (handles s)) (deleted s ++ destroyed ps).
Proof.
  intros Hrun. unfold alive.
  destruct c as [h | h p | h src | h | dst src | h | h p | a b | h | h | h | h | h
                | op l r]; cbn [exec handles_alive] in *; unfold alive.
  - by left.
  - by left.
  - left. destruct (handles s !! src) eqn:?; [by eexists | dead_handle Hrun].
  - left. destruct (handles s !! h) eqn:?; [by eexists | dead_handle Hrun].
  - apply run_drop_inv in Hrun as [a Hrun].
    destruct (assign_done _ _ _ _ _ Hrun) as (ps & Hs & [Hd | [Hd ->]]).
    + left. split; [done | by eexists].
    + right. by exists dst, src, ps.
  - left. destruct (handles s !! h) eqn:?; [by eexists | dead_handle Hrun].
  - left. destruct (handles s !! h) eqn:?; [by eexists | dead_handle Hrun].
  - left. destruct (handles s !! a) eqn:?; [| dead_handle Hrun].
    destruct (handles s !! b) eqn:?; [| dead_handle Hrun].
    split; by eexists.
  - left. destruct (handles s !! h) eqn:?; [by eexists | dead_handle Hrun].
  - left. destruct (handles s !! h) eqn:?; [by eexists | dead_handle Hrun].
  - left. destruct (handles s !! h) eqn:?; [by eexists | dead_handle Hrun].
  - left. destruct (handles s !! h) eqn:?; [by eexists | dead_handle Hrun].
  - left. destruct (handles s !! h) eqn:?; [by eexists | dead_handle Hrun].
  - left. destruct (handles s !! l) eqn:?; [| destruct op; dead_handle Hrun].
    destruct (handles s !! r) eqn:?; [| destruct op; dead_handle Hrun].
    split; by eexists.
Qed.

(** Every call made within its contract keeps the invariant. *)
Lemma call_preserves_inv c s s' :
  ownership_inv s → contract c s → run (exec c) s = Done tt s' →
  ownership_inv s'.
Proof.
  intros Hinv Hc Hrun.
  destruct (completed_call_alive c s s' Hrun)
    as [Hlive | (dst & src & ps & -> & Hs & ->)]; [| by apply inv_destroy].
  destruct c; cbn [exec contract handles_alive] in *; unfold alive in *.
  - (* unique_ptr() *)
    injection Hrun as <-. apply inv_bind; auto.
  - (* unique_ptr(T *ptr) *)
    injection Hrun as <-. by apply inv_bind.
  - (* unique_ptr(const unique_ptr &) *)
    destruct Hlive as [p Hp]. rewrite (run_ctor_copy _ _ _ _ Hp) in Hrun.
    injection Hrun as <-. by apply inv_move.
  - (* ~unique_ptr() *)
    destruct Hlive as [p Hp]. rewrite (run_dtor _ _ _ Hp) in Hrun.
    injection Hrun as <-.
    rewrite <- (delete_insert_eq (handles s) this nullptr).
    exact (inv_end_lifetime _ (inv_destroy s Hinv this p Hp) this).
  - (* operator= *)
    destruct Hlive as [[pd Hd] [ps Hs]]. apply run_drop_inv in Hrun as [a Hrun].
    destruct (decide (dst = src)) as [-> | Hne].
    + rewrite (run_assign_self _ _ _ Hs) in Hrun. by injection Hrun as _ <-.
    + rewrite (run_assign _ _ _ _ _ Hne Hd Hs) in Hrun. injection Hrun as _ <-.
      rewrite <- (insert_insert_eq (handles s) dst ps nullptr).
      refine (inv_move _ (inv_destroy s Hinv dst pd Hd) dst src ps _).
      cbn [handles]. by rewrite lookup_insert_ne.
  - (* reset() *)
    destruct Hlive as [p Hp]. rewrite (run_reset _ _ _ Hp) in Hrun.
    injection Hrun as <-. by apply inv_destroy.
  - (* reset(T *ptr) *)
    destruct Hlive as [p Hp]. rewrite (run_reset_ptr _ _ _ _ Hp) in Hrun.
    destruct ((nullptr =? ptr) || negb (p =? ptr)); [| done].
    injection Hrun as <-.
    rewrite <- (insert_insert_eq (handles s) this ptr nullptr).
    refine (inv_bind _ (inv_destroy s Hinv this p Hp) this ptr _).
    destruct (decide (ptr = nullptr)); [by left | right].
    by apply unowned_destroy; [| destruct Hc |].
  - (* swap *)
    destruct Hlive as [[pa Ha] [pb Hb]].
    rewrite (run_swap _ _ _ _ _ Ha Hb) in Hrun.
    injection Hrun as <-. by apply inv_swap.
  - (* release() *)
    destruct Hlive as [p Hp]. apply run_drop_inv in Hrun as [a Hrun].
    rewrite (run_release _ _ _ Hp) in Hrun.
    injection Hrun as _ <-. apply inv_bind; auto.
  - (* operator bool *)
    destruct Hlive as [p Hp]. apply run_drop_inv in Hrun as [a Hrun].
    rewrite (run_operator_bool _ _ _ Hp) in Hrun. by injection Hrun as _ <-.
  - (* operator* *)
    destruct Hlive as [p Hp]. apply run_drop_inv in Hrun as [a Hrun].
    rewrite (run_operator_deref _ _ _ Hp) in Hrun.
    destruct (negb (nullptr =? p)); [| done]. by injection Hrun as _ <-.
  - (* operator-> *)
    destruct Hlive as [p Hp]. apply run_drop_inv in Hrun as [a Hrun].
    rewrite (run_operator_arrow _ _ _ Hp) in Hrun.
    destruct (negb (nullptr =? p)); [| done]. by injection Hrun as _ <-.
  - (* get() *)
    destruct Hlive as [p Hp]. apply run_drop_inv in Hrun as [a Hrun].
    rewrite (run_get _ _ _ Hp) in Hrun. by injection Hrun as _ <-.
  - (* comparisons *)
    destruct Hlive as [[p Hp] [q Hq]]. apply run_drop_inv in Hrun as [a Hrun].
    destruct (run_compare_op op _ _ _ _ _ Hp Hq) as [b Hb].
    rewrite Hb in Hrun. by injection Hrun as _ <-.
Qed.

Lemma reachable_inv s : reachable s → ownership_inv s.
Proof.
  unfold reachable. induction 1 as [| s c s' _ IH Hc Hrun].
  - apply ownership_inv_init.
  - by eapply call_preserves_inv.
Qed.

(** ** Destruction exactly once *)

Lemma count_occ_snoc_fresh (l : list N) (x : N) :
  x ∉ l → count_occ N.eq_dec (l ++ [x]) x = 1%nat.
Proof.
  intros Hx. rewrite count_occ_app. cbn [count_occ].
  destruct (N.eq_dec x x) as [_ | Hne]; [| done].
  rewrite (proj1 (count_occ_not_In N.eq_dec l x)); [done |].
  by rewrite <- list_elem_of_In.
Qed.

(** C1.  For every object [x], constructing a handle from the address
    of [x] and running its destructor ends with the handle gone and
    [x] added once to the history of destroyed objects, so that an
    object that was alive has been destroyed exactly once.  And in
    every state a client reaches by calls that hand over raw addresses
    within the contract, no object has been destroyed more than
    once. *)
Theorem owned_object_destroyed_once :
  (∀ s h x, x ≠ nullptr →
     ∃ s',
       run (unique_ptr.ctor_ptr h x;; unique_ptr.dtor h) s = Done tt s' ∧
       handles s' = delete h (handles s) ∧
       deleted s' = deleted s ++ [x] ∧
       (x ∉ deleted s → count_occ N.eq_dec (deleted s') x = 1%nat)) ∧
  (∀ s, reachable s → NoDup (deleted s)).
Proof.
  split; [| intros s Hs; apply reachable_inv, Hs].
  intros s h x Hx.
  exists (State (delete h (handles s)) (deleted s ++ [x])).
  split; [| split; [done | split; [done |]]].
  - erewrite run_bind_done by apply run_init_member.
    rewrite (run_dtor h _ x) by (cbn [handles]; apply lookup_insert_eq).
    cbn [handles deleted]. rewrite delete_insert_eq.
    unfold destroyed. by rewrite decide_False.
  - cbn [deleted]. apply count_occ_snoc_fresh.
Qed.

(** Without the contract on raw addresses the history can hold an
    object twice: two handles constructed from the address 5, each
    going out of scope, destroy the object at 5 twice. *)
Lemma unchecked_calls_destroy_twice :
  ¬ (∀ s, reachable_unchecked s → NoDup (deleted s)).
Proof.
  intros Hall.
  assert (reachable_unchecked (State ∅ [5; 5])) as Hs.
  { eapply (reachable_call _ _ (Call_dtor 1%nat)); [| done |].
    - eapply (reachable_call _ _ (Call_dtor 2%nat)); [| done |].
      + eapply (reachable_call _ _ (Call_ctor_ptr 2%nat 5)); [| done |].
        * eapply (reachable_call _ _ (Call_ctor_ptr 1%nat 5));
            [apply reachable_init | done | reflexivity].
        * reflexivity.
      + reflexivity.
    - vm_compute. reflexivity. }
  apply Hall in Hs. cbn [deleted] in Hs.
  apply NoDup_cons in Hs as [Hin _]. apply Hin, list_elem_of_here.
Qed.

(** ** The theorems at concrete states *)

Lemma after_scope_reachable : reachable after_scope.
Proof.
  eapply (reachable_call contract _ (Call_dtor 2%nat)).
  - eapply (reachable_call contract _ (Call_ctor_copy 2%nat 1%nat)).
    + eapply (reachable_call contract _ (Call_ctor_ptr 1%nat 5)).
      * apply reachable_init.
      * right. split; [apply not_elem_of_nil | apply map_Forall_empty].
      * reflexivity.
    + done.
    + reflexivity.
  - done.
  - vm_compute. reflexivity.
Qed.

Lemma owned_object_destroyed_once_witness :
  reachable after_scope ∧ NoDup (deleted after_scope) ∧
  7 ≠ nullptr ∧ (7 ∉ deleted after_scope) ∧
  ∃ s',
    run (unique_ptr.ctor_ptr 2%nat 7;; unique_ptr.dtor 2%nat) after_scope
      = Done tt s' ∧
    handles s' = delete 2%nat (handles after_scope) ∧
    deleted s' = deleted after_scope ++ [7] ∧
    (7 ∉ deleted after_scope → count_occ N.eq_dec (deleted s') 7 = 1%nat).
Proof.
  split; [exact after_scope_reachable |].
  split; [exact (proj2 owned_object_destroyed_once _ after_scope_reachable) |].
  assert (7 ≠ nullptr) as Hn by (unfold nullptr; lia).
  split; [exact Hn |].
  split; [| exact (proj1 owned_object_destroyed_once after_scope 2%nat 7 Hn)].
  cbn [after_scope deleted]. intros Hin.
  apply list_elem_of_singleton in Hin. lia.
Defined.

Lemma transfer_construct_takes_address_witness :
  handles two_handles !! 1%nat = Some 5 ∧
  handles two_handles !! 3%nat = None ∧
  ∃ s1 s2,
    run (unique_ptr.ctor_copy 3%nat 1%nat) two_handles = Done tt s1 ∧
    run (unique_ptr.get 3%nat) s1 = Done 5 s1 ∧
    run (unique_ptr.get 1%nat) s1 = Done nullptr s1 ∧
    deleted s1 = deleted two_handles ∧
    run (unique_ptr.dtor 1%nat) s1 = Done tt s2 ∧
    deleted s2 = deleted two_handles ∧
    run (unique_ptr.get 3%nat) s2 = Done 5 s2.
Proof.
  split; [reflexivity |]. split; [reflexivity |].
  apply (transfer_construct_takes_address two_handles 1%nat 3%nat 5);
    reflexivity.
Defined.

Lemma self_assign_is_noop_witness :
  handles two_handles !! 1%nat = Some 5 ∧
  run (unique_ptr.assign 1%nat 1%nat) two_handles = Done 1%nat two_handles.
Proof.
  split; [reflexivity |].
  apply (self_assign_is_noop two_handles 1%nat 5). reflexivity.
Defined.

Lemma release_returns_address_witness :
  handles two_handles !! 2%nat = Some 7 ∧
  ∃ s',
    run (unique_ptr.release 2%nat) two_handles = Done 7 s' ∧
    handles s' = <[2%nat := nullptr]> (handles two_handles) ∧
    run (unique_ptr.get 2%nat) s' = Done nullptr s' ∧
    deleted s' = deleted two_handles.
Proof.
  split; [reflexivity |].
  apply (release_returns_address two_handles 2%nat 7). reflexivity.
Defined.

Lemma swap_exchanges_and_is_involutive_witness :
  handles two_handles !! 1%nat = Some 5 ∧
  handles two_handles !! 2%nat = Some 7 ∧
  run (unique_ptr.swap 1%nat 2%nat;; unique_ptr.swap 1%nat 2%nat) two_handles =
  Done tt two_handles.
Proof.
  split; [reflexivity |]. split; [reflexivity |].
  apply (swap_exchanges_and_is_involutive two_handles 1%nat 2%nat 5 7);
    reflexivity.
Defined.

Lemma reset_destroys_and_is_idempotent_witness :
  handles two_handles !! 1%nat = Some 5 ∧
  run (unique_ptr.reset 1%nat;; unique_ptr.reset 1%nat) two_handles =
  run (unique_ptr.reset 1%nat) two_handles.
Proof.
  split; [reflexivity |].
  apply (reset_destroys_and_is_idempotent two_handles 1%nat 5). reflexivity.
Defined.


(** * Further properties of the class *)

Section construction.
Import unique_ptr.
Implicit Types (s : state) (h a b : loc) (p q : addr).

(** X1.  A default-constructed handle is empty: [get()] gives
    [nullptr], [operator bool] gives [false], and its destructor
    destroys nothing, leaving the state as if the storage had never
    held a handle. *)
Theorem default_constructed_is_empty s h :
  ∃ s1,
    run (ctor_default h) s = Done tt s1 ∧
    run (get h) s1 = Done nullptr s1 ∧
    run (operator_bool h) s1 = Done false s1 ∧
    deleted s1 = deleted s ∧
    run (dtor h) s1 = Done tt (State (delete h (handles s)) (deleted s)).
Proof.
  exists (State (<[h := nullptr]> (handles s)) (deleted s)).
  assert (handles (State (<[h := nullptr]> (handles s)) (deleted s)) !! h
          = Some nullptr) as Hh by (cbn [handles]; apply lookup_insert_eq).
  split; [reflexivity |].
  split; [by apply run_get |].
  split; [by rewrite (run_operator_bool _ _ _ Hh) |].
  split; [done |].
  rewrite (run_dtor _ _ _ Hh). cbn [handles deleted].
  rewrite delete_insert_eq. unfold destroyed.
  rewrite decide_True by done. by rewrite app_nil_r.
Qed.

(** X2.  [operator bool] of a live handle is [true] exactly when the
    held address is not [nullptr]; it leaves the state unchanged and
    gives what [operator!=] gives against any empty handle. *)
Theorem operator_bool_tests_nonempty s h e p :
  handles s !! h = Some p →
  handles s !! e = Some nullptr →
  run (operator_bool h) s = Done (bool_decide (p ≠ nullptr)) s ∧
  run (operator_ne h e) s = run (operator_bool h) s.
Proof.
  intros Hh He.
  assert (negb (nullptr =? p) = bool_decide (p ≠ nullptr)) as Hb.
  { destruct (N.eqb_spec nullptr p) as [<- | Hne]; cbn [negb].
    - by rewrite bool_decide_eq_false_2 by tauto.
    - by rewrite bool_decide_eq_true_2 by congruence. }
  rewrite (run_operator_bool _ _ _ Hh), Hb. split; [done |].
  etransitivity;
    [exact (run_compare (λ x y, negb (x =? y)) h e s p nullptr Hh He) |].
  cbv beta. by rewrite N.eqb_sym, Hb.
Qed.

(** X3.  Wrapping a raw address and releasing it gives the address
    back with nothing destroyed: after [unique_ptr h(p)], [get()] is
    [p]; [release()] returns [p]; and the destructor that follows
    destroys nothing. *)
Theorem wrap_then_release_returns_address s h p :
  ∃ s1 s2,
    run (ctor_ptr h p) s = Done tt s1 ∧
    run (get h) s1 = Done p s1 ∧
    run (release h) s1 = Done p s2 ∧
    deleted s2 = deleted s ∧
    run (dtor h) s2 = Done tt (State (delete h (handles s)) (deleted s)).
Proof.
  exists (State (<[h := p]> (handles s)) (deleted s)).
  exists (State (<[h := nullptr]> (handles s)) (deleted s)).
  assert (handles (State (<[h := p]> (handles s)) (deleted s)) !! h = Some p)
    as Hh by (cbn [handles]; apply lookup_insert_eq).
  split; [reflexivity |].
  split; [by apply run_get |].
  split; [rewrite (run_release _ _ _ Hh); cbn [handles deleted];
          by rewrite insert_insert_eq |].
  split; [done |].
  rewrite (run_dtor _ _ nullptr) by (cbn [handles]; apply lookup_insert_eq).
  cbn [handles deleted]. rewrite delete_insert_eq. unfold destroyed.
  rewrite decide_True by done. by rewrite app_nil_r.
Qed.

(** X4.  Handing ownership over through a raw address is the same as
    transfer construction: for a live handle [a] and other storage
    [b], [unique_ptr b(a.release())] ends in the state that
    [unique_ptr b(a)] ends in. *)
Theorem release_then_wrap_is_transfer s a b p :
  a ≠ b →
  handles s !! a = Some p →
  run (q ← release a; ctor_ptr b q) s = run (ctor_copy b a) s.
Proof.
  intros Hab Ha.
  erewrite run_bind_done by (by apply run_release).
  rewrite (run_ctor_copy b a s p Ha).
  unfold ctor_ptr. rewrite run_init_member. cbn [handles deleted].
  by rewrite insert_insert_ne.
Qed.

End construction.

Section composition.
Import unique_ptr.
Implicit Types (s : state) (h a b l r dst src : loc) (p q : addr).

(** X9.  [swap] does not depend on which handle is the receiver:
    [a.swap(b)] and [b.swap(a)] have the same outcome in every state,
    and swapping a live handle with itself changes nothing. *)
Theorem swap_is_symmetric s a b :
  run (swap a b) s = run (swap b a) s ∧
  (is_Some (handles s !! a) → run (swap a a) s = Done tt s).
Proof.
  split.
  - destruct (handles s !! a) as [pa |] eqn:Ha;
      destruct (handles s !! b) as [pb |] eqn:Hb.
    + rewrite (run_swap _ _ _ _ _ Ha Hb), (run_swap _ _ _ _ _ Hb Ha).
      f_equal. f_equal. destruct (decide (a = b)) as [-> | Hab].
      * by simplify_eq.
      * by apply insert_insert_ne.
    + unfold swap. rewrite !run_bind, (run_load _ _ _ Ha), !run_bind.
      by rewrite !run_load_dead.
    + unfold swap. rewrite !run_bind, (run_load _ _ _ Hb), !run_bind.
      by rewrite !run_load_dead.
    + unfold swap. by rewrite !run_bind, !run_load_dead.
  - intros [p Ha]. rewrite (run_swap _ _ _ _ _ Ha Ha). f_equal.
    apply state_eq; cbn [handles deleted]; [| done].
    rewrite insert_insert_eq. by apply insert_id.
Qed.

(** X10.  A handle that has been released, reset or moved from is
    empty: [operator bool] gives [false] and its destructor destroys
    nothing. *)
Theorem vacated_handle_is_empty s h p s' :
  handles s !! h = Some p →
  run (release h) s = Done p s' ∨
  run (reset h) s = Done tt s' ∨
  (∃ b, b ≠ h ∧ run (ctor_copy b h) s = Done tt s') →
  run (operator_bool h) s' = Done false s' ∧
  ∃ s'', run (dtor h) s' = Done tt s'' ∧ deleted s'' = deleted s'.
Proof.
  intros Hh Hop.
  assert (handles s' !! h = Some nullptr) as Hh'.
  { destruct Hop as [Hop | [Hop | (b & Hb & Hop)]].
    - rewrite (run_release _ _ _ Hh) in Hop. injection Hop as <-.
      cbn [handles]. apply lookup_insert_eq.
    - rewrite (run_reset _ _ _ Hh) in Hop. injection Hop as <-.
      cbn [handles]. apply lookup_insert_eq.
    - rewrite (run_ctor_copy _ _ _ _ Hh) in Hop. injection Hop as <-.
      cbn [handles]. apply lookup_insert_eq. }
  split; [by rewrite (run_operator_bool _ _ _ Hh') |].
  eexists. split; [by apply run_dtor |]. cbn [deleted].
  unfold destroyed. rewrite decide_True by done. apply app_nil_r.
Qed.

(** X11.  The six comparison operators agree with one another on any
    two live handles: [!=] is the negation of [==], [>] and [>=] are
    [<] and [<=] with the operands exchanged, [<=] is [<] or [==], and
    [>=] is the negation of [<]. *)
Theorem comparison_operators_agree s l r p q :
  handles s !! l = Some p →
  handles s !! r = Some q →
  ∃ eq ne le lt ge gt lt' le',
    run (operator_eq l r) s = Done eq s ∧
    run (operator_ne l r) s = Done ne s ∧
    run (operator_le l r) s = Done le s ∧
    run (operator_lt l r) s = Done lt s ∧
    run (operator_ge l r) s = Done ge s ∧
    run (operator_gt l r) s = Done gt s ∧
    run (operator_lt r l) s = Done lt' s ∧
    run (operator_le r l) s = Done le' s ∧
    ne = negb eq ∧ gt = lt' ∧ ge = le' ∧
    le = lt || eq ∧ ge = negb lt ∧ (lt && gt = false).
Proof.
  intros Hl Hr.
  exists (p =? q), (negb (p =? q)), (p <=? q), (p <? q), (q <=? p), (q <? p),
    (q <? p), (q <=? p).
  split; [exact (run_compare N.eqb l r s p q Hl Hr) |].
  split; [exact (run_compare (λ x y, negb (x =? y)) l r s p q Hl Hr) |].
  split; [exact (run_compare N.leb l r s p q Hl Hr) |].
  split; [exact (run_compare N.ltb l r s p q Hl Hr) |].
  split; [exact (run_compare (λ x y, y <=? x) l r s p q Hl Hr) |].
  split; [exact (run_compare (λ x y, y <? x) l r s p q Hl Hr) |].
  split; [exact (run_compare N.ltb r l s q p Hr Hl) |].
  split; [exact (run_compare N.leb r l s q p Hr Hl) |].
  split; [done |]. split; [done |]. split; [done |].
  destruct (N.eqb_spec p q), (N.leb_spec p q), (N.ltb_spec p q),
    (N.leb_spec q p), (N.ltb_spec q p); cbn; (done || lia).
Qed.
End composition.

Section whole_class.
Import unique_ptr.
Implicit Types (s : state) (h : loc) (p q : addr) (c : call).

(** X12.  Exclusive ownership.  In every state a client reaches by
    calls within the contract, two live handles that hold the same
    non-null address are one and the same handle. *)
Theorem reachable_exclusive_ownership s h1 h2 p :
  reachable s →
  handles s !! h1 = Some p →
  handles s !! h2 = Some p →
  p ≠ nullptr →
  h1 = h2.
Proof. intros Hs. apply (inv_exclusive s (reachable_inv s Hs)). Qed.

End whole_class.

Section edge_cases.
Import unique_ptr.
Implicit Types (s : state) (h a b c : loc) (p q : addr).

(** X16.  Operations on an empty handle.  On a live handle holding
    [nullptr], [release()] returns [nullptr] and changes nothing; and
    transfer-constructing from it gives another empty handle, with no
    other change. *)
Theorem empty_handle_operations s h :
  handles s !! h = Some nullptr →
  run (release h) s = Done nullptr s ∧
  (∀ b, run (ctor_copy b h) s =
          Done tt (State (<[h := nullptr]> (<[b := nullptr]> (handles s)))
                         (deleted s))) ∧
  (∀ b, b ≠ h →
     ∃ s', run (ctor_copy b h) s = Done tt s' ∧
           run (operator_bool b) s' = Done false s' ∧
           run (operator_eq b h) s' = Done true s').
Proof.
  intros Hh. split; [| split].
  - rewrite (run_release _ _ _ Hh). f_equal.
    apply state_eq; cbn [handles deleted]; [by apply insert_id | done].
  - intros b. by apply run_ctor_copy.
  - intros b Hb.
    set (s' := State (<[h := nullptr]> (<[b := nullptr]> (handles s)))
                     (deleted s)).
    assert (handles s' !! b = Some nullptr) as Hb'
      by (cbn [s' handles]; by simplify_map_eq).
    assert (handles s' !! h = Some nullptr) as Hh'
      by (cbn [s' handles]; by simplify_map_eq).
    exists s'. split; [by apply run_ctor_copy |].
    split; [by rewrite (run_operator_bool _ _ _ Hb') |].
    exact (run_compare N.eqb b h s' nullptr nullptr Hb' Hh').
Qed.
End edge_cases.

(** ** The further properties at concrete states *)

Lemma unowned_by_decide p (m : gmap loc addr) :
  bool_decide (unowned p (State m [])) = true → unowned p (State m []).
Proof. apply bool_decide_eq_true_1. Qed.

Lemma two_handles_reachable : reachable two_handles.
Proof.
  eapply (reachable_call contract _ (Call_ctor_ptr 1%nat 5)).
  - eapply (reachable_call contract _ (Call_ctor_ptr 2%nat 7)).
    + apply reachable_init.
    + right. apply unowned_by_decide. vm_compute. reflexivity.
    + reflexivity.
  - right. apply unowned_by_decide. vm_compute. reflexivity.
  - reflexivity.
Qed.

Lemma operator_bool_tests_nonempty_witness :
  handles moved_from !! 2%nat = Some 5 ∧
  handles moved_from !! 1%nat = Some nullptr ∧
  run (unique_ptr.operator_bool 2%nat) moved_from = Done true moved_from ∧
  run (operator_ne 2%nat 1%nat) moved_from =
  run (unique_ptr.operator_bool 2%nat) moved_from.
Proof.
  split; [reflexivity |]. split; [reflexivity |].
  apply (operator_bool_tests_nonempty moved_from 2%nat 1%nat 5); reflexivity.
Defined.

Lemma release_then_wrap_is_transfer_witness :
  1%nat ≠ 3%nat ∧
  handles two_handles !! 1%nat = Some 5 ∧
  run (q ← unique_ptr.release 1%nat; unique_ptr.ctor_ptr 3%nat q) two_handles =
  run (unique_ptr.ctor_copy 3%nat 1%nat) two_handles.
Proof.
  split; [lia |]. split; [reflexivity |].
  apply (release_then_wrap_is_transfer two_handles 1%nat 3%nat 5);
    [lia | reflexivity].
Defined.

Lemma swap_is_symmetric_witness :
  is_Some (handles two_handles !! 1%nat) ∧
  run (unique_ptr.swap 1%nat 1%nat) two_handles = Done tt two_handles.
Proof.
  assert (is_Some (handles two_handles !! 1%nat)) as Hl by (by exists 5).
  split; [exact Hl |].
  exact (proj2 (swap_is_symmetric two_handles 1%nat 1%nat) Hl).
Defined.

Lemma vacated_handle_is_empty_witness :
  handles two_handles !! 1%nat = Some 5 ∧
  run (unique_ptr.release 1%nat) two_handles = Done 5 after_release ∧
  run (unique_ptr.operator_bool 1%nat) after_release =
    Done false after_release.
Proof.
  split; [reflexivity |]. split; [reflexivity |].
  apply (vacated_handle_is_empty two_handles 1%nat 5 after_release);
    [reflexivity | left; reflexivity].
Defined.

Lemma comparison_operators_agree_witness :
  handles two_handles !! 1%nat = Some 5 ∧
  handles two_handles !! 2%nat = Some 7 ∧
  ∃ eq ne le lt ge gt lt' le',
    run (operator_eq 1%nat 2%nat) two_handles = Done eq two_handles ∧
    run (operator_ne 1%nat 2%nat) two_handles = Done ne two_handles ∧
    run (operator_le 1%nat 2%nat) two_handles = Done le two_handles ∧
    run (operator_lt 1%nat 2%nat) two_handles = Done lt two_handles ∧
    run (operator_ge 1%nat 2%nat) two_handles = Done ge two_handles ∧
    run (operator_gt 1%nat 2%nat) two_handles = Done gt two_handles ∧
    run (operator_lt 2%nat 1%nat) two_handles = Done lt' two_handles ∧
    run (operator_le 2%nat 1%nat) two_handles = Done le' two_handles ∧
    ne = negb eq ∧ gt = lt' ∧ ge = le' ∧
    le = lt || eq ∧ ge = negb lt ∧ (lt && gt = false).
Proof.
  split; [reflexivity |]. split; [reflexivity |].
  apply (comparison_operators_agree two_handles 1%nat 2%nat 5 7); reflexivity.
Defined.

Lemma reachable_exclusive_ownership_witness :
  reachable two_handles ∧
  handles two_handles !! 1%nat = Some 5 ∧
  5 ≠ nullptr ∧
  1%nat = 1%nat.
Proof.
  assert (5 ≠ nullptr) as Hn by (unfold nullptr; lia).
  split; [exact two_handles_reachable |]. split; [reflexivity |].
  split; [exact Hn |].
  apply (reachable_exclusive_ownership two_handles 1%nat 1%nat 5);
    [exact two_handles_reachable | reflexivity | reflexivity | exact Hn].
Defined.

Lemma empty_handle_operations_witness :
  handles moved_from !! 1%nat = Some nullptr ∧
  run (unique_ptr.release 1%nat) moved_from = Done nullptr moved_from.
Proof.
  split; [reflexivity |].
  apply (empty_handle_operations moved_from 1%nat). reflexivity.
Defined.

(** * Objects that hold handles *)

(** ** Frame properties of nested destruction *)

Lemma run_bind_inv {A B} (m : M A) (k : A → M B) s b s1 :
  run (m ≫= k) s = Done b s1 →
  ∃ a s', run m s = Done a s' ∧ run (k a) s' = Done b s1.
Proof.
  rewrite run_bind. destruct (run m s) as [a s' | f]; [| done].
  intros Hk. by exists a, s'.
Qed.

Lemma keeps_dead_ret : keeps_dead (mret tt).
Proof. intros s s1 h Hrun Hh. rewrite run_ret in Hrun. by injection Hrun as <-. Qed.

Lemma framed_ret : framed (mret tt).
Proof. intros s s1 h v Hrun _. rewrite run_ret in Hrun. by injection Hrun as <-. Qed.

Lemma keeps_dead_record p : keeps_dead (record_destroyed p).
Proof. intros s s1 h Hrun Hh. by injection Hrun as <-. Qed.

Lemma framed_record p : framed (record_destroyed p).
Proof. intros s s1 h v Hrun _. by injection Hrun as <-. Qed.

Lemma keeps_dead_seq (m1 m2 : M unit) :
  keeps_dead m1 → keeps_dead m2 → keeps_dead (m1;; m2).
Proof.
  intros H1 H2 s s1 h Hrun Hh.
  apply run_bind_inv in Hrun as ([] & s' & Hm1 & Hm2). eauto.
Qed.

Lemma framed_seq (m1 m2 : M unit) :
  keeps_dead m1 → keeps_dead m2 → framed m1 → framed m2 → framed (m1;; m2).
Proof.
  intros Hd1 Hd2 Hf1 Hf2 s s1 h v Hrun Hh.
  apply run_bind_inv in Hrun as ([] & s' & Hm1 & Hm2).
  assert (is_Some (handles s' !! h) ∨ handles s !! h = None) as Hh1.
  { destruct Hh as [Hh | Hh]; [left | by right].
    destruct (handles s' !! h) eqn:Hs'; [by eexists |].
    rewrite (Hd2 _ _ _ Hm2 Hs') in Hh. by destruct Hh. }
  assert (is_Some (handles s1 !! h) ∨ handles s' !! h = None) as Hh2.
  { destruct Hh as [Hh | Hh]; [by left | right]. eauto. }
  erewrite run_bind_done by (by apply Hf1). by apply Hf2.
Qed.

Section dtor_with.
Variable del : addr → M unit.
Hypothesis del_dead : ∀ p, keeps_dead (del p).
Hypothesis del_framed : ∀ p, framed (del p).

(** What a completed destructor did: it read the member, deleted the
    pointee and ended the lifetime of the handle. *)
Lemma dtor_with_done m s s1 :
  run (dtor_with del m) s = Done tt s1 →
  ∃ p s', handles s !! m = Some p ∧ run (del p) s = Done tt s' ∧
          is_Some (handles s' !! m) ∧
          s1 = State (delete m (handles s')) (deleted s').
Proof.
  unfold dtor_with, destroy_with. intros Hrun.
  apply run_bind_inv in Hrun as ([] & s2 & Hrun & Hend).
  apply run_bind_inv in Hrun as (p & s0 & Hload & Hrun).
  apply run_bind_inv in Hrun as ([] & s' & Hdel & Hstore).
  unfold run, load in Hload.
  destruct (handles s !! m) as [p0 |] eqn:Hm; [| done].
  injection Hload as -> ->.
  unfold run, store in Hstore.
  destruct (handles s' !! m) as [q |] eqn:Hm'; [| done].
  injection Hstore as <-. injection Hend as <-. cbn [handles deleted].
  exists p, s'. split; [done |]. split; [done |]. split; [by eexists |].
  by rewrite delete_insert_eq.
Qed.

Lemma run_dtor_with m s p s' :
  handles s !! m = Some p → run (del p) s = Done tt s' →
  is_Some (handles s' !! m) →
  run (dtor_with del m) s = Done tt (State (delete m (handles s')) (deleted s')).
Proof.
  intros Hm Hdel Hm'. unfold dtor_with, destroy_with.
  erewrite run_bind_done; cycle 1.
  { erewrite run_bind_done by (by apply run_load).
    erewrite run_bind_done by exact Hdel.
    by apply run_store. }
  rewrite run_end_lifetime. cbn [handles deleted].
  by rewrite delete_insert_eq.
Qed.

Lemma keeps_dead_dtor_with m : keeps_dead (dtor_with del m).
Proof.
  intros s s1 h Hrun Hh.
  apply dtor_with_done in Hrun as (p & s' & Hm & Hdel & _ & ->).
  cbn [handles]. rewrite lookup_delete. case_decide; [done |].
  by eapply del_dead.
Qed.

Lemma framed_dtor_with m : framed (dtor_with del m).
Proof.
  intros s s1 h v Hrun Hh.
  apply dtor_with_done in Hrun as (p & s' & Hm & Hdel & Hm' & ->).
  cbn [handles] in Hh.
  assert (h ≠ m) as Hne.
  { intros ->. rewrite lookup_delete_eq in Hh.
    destruct Hh as [[? ?] | ?]; congruence. }
  rewrite lookup_delete_ne in Hh by done.
  rewrite (run_dtor_with m (with_handle h v s) p (with_handle h v s')).
  - unfold with_handle. cbn [handles deleted]. f_equal. f_equal.
    by rewrite delete_insert_ne.
  - cbn [with_handle handles]. by rewrite lookup_insert_ne.
  - by apply del_framed.
  - cbn [with_handle handles]. by rewrite lookup_insert_ne.
Qed.
End dtor_with.

Lemma keeps_dead_for_each {A} (body : A → M unit) l :
  (∀ x, keeps_dead (body x)) → keeps_dead (for_each l body).
Proof.
  intros Hbody. induction l as [| x l IH]; cbn [for_each].
  - apply keeps_dead_ret.
  - by apply keeps_dead_seq.
Qed.

Lemma framed_for_each {A} (body : A → M unit) l :
  (∀ x, keeps_dead (body x)) → (∀ x, framed (body x)) →
  framed (for_each l body).
Proof.
  intros Hdead Hframed. induction l as [| x l IH]; cbn [for_each].
  - apply framed_ret.
  - apply framed_seq; auto. by apply keeps_dead_for_each.
Qed.

Lemma delete_object_frame members fuel :
  ∀ p, keeps_dead (nested.delete_object members fuel p) ∧
       framed (nested.delete_object members fuel p).
Proof.
  induction fuel as [| fuel IH]; intros p; cbn [nested.delete_object];
    case_decide; try (split; [apply keeps_dead_ret | apply framed_ret]).
  - split; [intros s s1 h Hrun | intros s s1 h v Hrun]; done.
  - assert (∀ m, keeps_dead (dtor_with (nested.delete_object members fuel) m))
      as Hd by (intros m; apply keeps_dead_dtor_with; apply IH).
    assert (∀ m, framed (dtor_with (nested.delete_object members fuel) m))
      as Hf by (intros m; apply framed_dtor_with; apply IH).
    split.
    + apply keeps_dead_seq; [apply keeps_dead_record |].
      by apply keeps_dead_for_each.
    + apply framed_seq;
        [apply keeps_dead_record | by apply keeps_dead_for_each
        | apply framed_record | by apply framed_for_each].
Qed.

(** A handle that outlives a framed computation holds what it held. *)
Lemma framed_unchanged (m : M unit) s s1 h v :
  framed m → run m s = Done tt s1 →
  is_Some (handles s1 !! h) → handles s !! h = Some v →
  handles s1 !! h = Some v.
Proof.
  intros Hf Hrun Hh Hv.
  pose proof (Hf s s1 h v Hrun (or_introl Hh)) as Hrun'.
  assert (with_handle h v s = s) as Hs.
  { apply state_eq; cbn [with_handle handles deleted]; [| done].
    by apply insert_id. }
  rewrite Hs, Hrun in Hrun'. injection Hrun' as Hs1.
  rewrite Hs1. cbn [with_handle handles]. apply lookup_insert_eq.
Qed.

(** With no handle stored in any object, nested destruction is the
    plain [delete]. *)
Lemma delete_object_no_members members fuel p s :
  (∀ q, members q = []) →
  run (nested.delete_object members (S fuel) p) s = run (delete_object p) s.
Proof.
  intros Hnone. cbn [nested.delete_object]. unfold delete_object.
  case_decide; [done |]. rewrite Hnone. cbn [rev for_each].
  by erewrite run_bind_done by reflexivity.
Qed.

(** ** Transfer-assignment against its reference program *)

(** C3.  For two different live handles [dst] and [src] such that
    destroying the object [dst] owns, together with the handles
    stored in it and what they own, ends the lifetime of neither
    [dst] nor [src], the transfer-assignment [dst = src] of the
    source (parameter moved from [src], swap, destructor of the
    parameter) and the reference program (destroy what [dst] owns,
    then transfer-construct from [src] into [dst]) have the same
    outcome: the same handles, with [dst] holding what [src] held and
    [src] empty, and the same objects destroyed in the same order. *)
Theorem assign_refines_reference_independent
    members fuel s dst src pd ps s1 :
  dst ≠ src →
  handles s !! dst = Some pd →
  handles s !! src = Some ps →
  run (nested.delete_object members fuel pd) s = Done tt s1 →
  is_Some (handles s1 !! dst) →
  is_Some (handles s1 !! src) →
  run (nested.assign members fuel dst src) s =
    run (nested.assign_reference members fuel dst src) s ∧
  run (nested.assign members fuel dst src) s =
    Done dst (State (<[src := nullptr]> (<[dst := ps]> (handles s1)))
                    (deleted s1)).
Proof.
  intros Hne Hd Hs Hdel Hd1 Hs1.
  destruct (delete_object_frame members fuel pd) as [Hdead Hframed].
  assert (handles s1 !! src = Some ps) as Hs1'
    by (by eapply framed_unchanged).
  pose proof (fresh_loc_dead (handles s)) as Hp.
  assert (fresh (dom (handles s)) ≠ dst) as Hpd by (apply fresh_loc_ne; eauto).
  assert (fresh (dom (handles s)) ≠ src) as Hps by (apply fresh_loc_ne; eauto).
  set (param := fresh (dom (handles s))) in *.
  assert (handles s1 !! param = None) as Hp1 by (by eapply Hdead).
  (* the source *)
  assert (run (nested.assign members fuel dst src) s =
          Done dst (State (<[src := nullptr]> (<[dst := ps]> (handles s1)))
                          (deleted s1))) as Hcode.
  { unfold nested.assign. run_step. fold param.
    erewrite run_bind_done by (by apply run_ctor_copy).
    erewrite run_bind_done
      by (eapply run_operator_assign; cbn [handles]; simplify_map_eq; done).
    pose proof (Hframed _ _ param ps Hdel (or_intror Hp)) as F1.
    assert (run (nested.delete_object members fuel pd)
              (with_handle src nullptr (with_handle param ps s)) =
            Done tt (with_handle src nullptr (with_handle param ps s1))) as F2.
    { apply Hframed; [done | left].
      cbn [with_handle handles]. by rewrite lookup_insert_ne. }
    assert (run (nested.delete_object members fuel pd)
              (with_handle dst ps
                 (with_handle src nullptr (with_handle param ps s))) =
            Done tt (with_handle dst ps
                 (with_handle src nullptr (with_handle param ps s1)))) as F3.
    { apply Hframed; [done | left]. cbn [with_handle handles].
      rewrite lookup_insert_ne by done. by rewrite lookup_insert_ne. }
    assert (run (nested.delete_object members fuel pd)
              (with_handle param pd (with_handle dst ps
                 (with_handle src nullptr (with_handle param ps s)))) =
            Done tt (with_handle param pd (with_handle dst ps
                 (with_handle src nullptr (with_handle param ps s1))))) as F4.
    { apply Hframed; [done | left]. cbn [with_handle handles].
      rewrite lookup_insert_ne by done. rewrite lookup_insert_ne by done.
      rewrite lookup_insert_eq. by eexists. }
    unfold nested.dtor.
    erewrite run_bind_done; cycle 1.
    { eapply (run_dtor_with _ param _ pd); [| exact F4 |].
      - cbn [handles]. apply lookup_insert_eq.
      - cbn [with_handle handles]. rewrite lookup_insert_eq. by eexists. }
    rewrite run_ret. f_equal.
    apply state_eq; cbn [with_handle handles deleted]; [| done].
    apply map_eq; intros i.
    destruct (decide (i = param)), (decide (i = dst)), (decide (i = src));
      by simplify_map_eq. }
  split; [| exact Hcode]. rewrite Hcode.
  (* the reference program *)
  unfold nested.assign_reference, nested.destroy, destroy_with.
  destruct Hd1 as [pd' Hd1].
  erewrite run_bind_done; cycle 1.
  { erewrite run_bind_done by (by apply run_load).
    erewrite run_bind_done by exact Hdel.
    apply run_store. by eexists. }
  erewrite run_bind_done
    by (eapply run_ctor_copy; cbn [handles]; by rewrite lookup_insert_ne).
  rewrite run_ret. cbn [handles deleted]. by rewrite insert_insert_eq.
Qed.

(** On [head = head.get()->next] the two programs part: the source
    moves the second node into [head] and destroys the first node
    only; the reference program destroys the first node and with it
    the handle to assign from and the second node, and then reads a
    handle whose lifetime is over. *)
Lemma assign_from_owned_member_differs :
  1%nat ≠ 2%nat ∧
  handles two_lists !! 1%nat = Some 10 ∧
  handles two_lists !! 2%nat = Some 20 ∧
  run (nested.assign list_members 3 1%nat 2%nat) two_lists =
    Done 1%nat
      (State (<[1%nat := 20]> (<[3%nat := nullptr]>
               (<[4%nat := 30]> (<[5%nat := nullptr]> ∅)))) [10]) ∧
  run (nested.assign_reference list_members 3 1%nat 2%nat) two_lists =
    Fault DeadHandle ∧
  run (nested.assign list_members 3 1%nat 2%nat) two_lists ≠
  run (nested.assign_reference list_members 3 1%nat 2%nat) two_lists.
Proof.
  assert (run (nested.assign list_members 3 1%nat 2%nat) two_lists =
    Done 1%nat
      (State (<[1%nat := 20]> (<[3%nat := nullptr]>
               (<[4%nat := 30]> (<[5%nat := nullptr]> ∅)))) [10])) as Hcode
    by (vm_compute; reflexivity).
  assert (run (nested.assign_reference list_members 3 1%nat 2%nat) two_lists =
    Fault DeadHandle) as Href by (vm_compute; reflexivity).
  split; [lia |]. split; [reflexivity |]. split; [reflexivity |].
  split; [exact Hcode |]. split; [exact Href |].
  rewrite Hcode, Href. discriminate.
Qed.

Lemma assign_refines_reference_independent_witness :
  1%nat ≠ 4%nat ∧
  handles two_lists !! 1%nat = Some 10 ∧
  handles two_lists !! 4%nat = Some 30 ∧
  run (nested.assign list_members 3 1%nat 4%nat) two_lists =
    run (nested.assign_reference list_members 3 1%nat 4%nat) two_lists ∧
  run (nested.assign list_members 3 1%nat 4%nat) two_lists =
    Done 1%nat
      (State (<[4%nat := nullptr]> (<[1%nat := 30]>
               (<[1%nat := 10]> (<[4%nat := 30]> (<[5%nat := nullptr]> ∅)))))
             [10; 20]).
Proof.
  split; [lia |]. split; [reflexivity |]. split; [reflexivity |].
  assert (1%nat ≠ 4%nat) as Hne by lia.
  assert (run (nested.delete_object list_members 3 10) two_lists =
          Done tt (State (<[1%nat := 10]> (<[4%nat := 30]>
                            (<[5%nat := nullptr]> ∅))) [10; 20])) as Hdel
    by (vm_compute; reflexivity).
  exact (assign_refines_reference_independent list_members 3 two_lists
           1%nat 4%nat 10 30 _ Hne eq_refl eq_refl Hdel
           (ex_intro _ 10 eq_refl) (ex_intro _ 30 eq_refl)).
Defined.

(** * Comparison over related element types *)

Lemma run_compare_converted (f : addr → addr → bool) (cl cr : conversion)
    l r s p q :
  handles s !! l = Some p → handles s !! r = Some q →
  run (a ← unique_ptr.get l; b ← unique_ptr.get r; mret (f (cl a) (cr b))) s
  = Done (f (cl p) (cr q)) s.
Proof. intros Hl Hr. exact (run_compare (λ a b, f (cl a) (cr b)) l r s p q Hl Hr). Qed.

(** C9.  For two live handles holding addresses [p] and [q], each of
    the six comparison operators returns what the same comparison
    gives on the two addresses converted to the common pointer type,
    and leaves the state unchanged.  For handles of one element type
    that is the comparison of [p] and [q] themselves.  Whatever the
    element types, two empty handles compare equal and an empty
    handle compares unequal to a handle holding a non-empty
    address. *)
Theorem comparisons_follow_converted_addresses
    (cl cr : conversion) s l r p q :
  handles s !! l = Some p →
  handles s !! r = Some q →
  (run (related.operator_eq cl cr l r) s = Done (bool_decide (cl p = cr q)) s ∧
   run (related.operator_ne cl cr l r) s = Done (bool_decide (cl p ≠ cr q)) s ∧
   run (related.operator_le cl cr l r) s = Done (bool_decide (cl p ≤ cr q)) s ∧
   run (related.operator_lt cl cr l r) s = Done (bool_decide (cl p < cr q)) s ∧
   run (related.operator_ge cl cr l r) s = Done (bool_decide (cr q ≤ cl p)) s ∧
   run (related.operator_gt cl cr l r) s = Done (bool_decide (cr q < cl p)) s) ∧
  (run (related.operator_eq same_type same_type l r) s
     = Done (bool_decide (p = q)) s ∧
   run (related.operator_ne same_type same_type l r) s
     = Done (bool_decide (p ≠ q)) s ∧
   run (related.operator_le same_type same_type l r) s
     = Done (bool_decide (p ≤ q)) s ∧
   run (related.operator_lt same_type same_type l r) s
     = Done (bool_decide (p < q)) s ∧
   run (related.operator_ge same_type same_type l r) s
     = Done (bool_decide (q ≤ p)) s ∧
   run (related.operator_gt same_type same_type l r) s
     = Done (bool_decide (q < p)) s) ∧
  (p = nullptr → q = nullptr →
     run (related.operator_eq cl cr l r) s = Done true s ∧
     run (related.operator_ne cl cr l r) s = Done false s) ∧
  (p = nullptr → q ≠ nullptr →
     run (related.operator_eq cl cr l r) s = Done false s ∧
     run (related.operator_ne cl cr l r) s = Done true s ∧
     run (related.operator_eq cr cl r l) s = Done false s ∧
     run (related.operator_ne cr cl r l) s = Done true s).
Proof.
  intros Hl Hr.
  assert (∀ (c1 c2 : conversion) h1 h2 a b,
    handles s !! h1 = Some a → handles s !! h2 = Some b →
    run (related.operator_eq c1 c2 h1 h2) s
      = Done (bool_decide (c1 a = c2 b)) s ∧
    run (related.operator_ne c1 c2 h1 h2) s
      = Done (bool_decide (c1 a ≠ c2 b)) s ∧
    run (related.operator_le c1 c2 h1 h2) s
      = Done (bool_decide (c1 a ≤ c2 b)) s ∧
    run (related.operator_lt c1 c2 h1 h2) s
      = Done (bool_decide (c1 a < c2 b)) s ∧
    run (related.operator_ge c1 c2 h1 h2) s
      = Done (bool_decide (c2 b ≤ c1 a)) s ∧
    run (related.operator_gt c1 c2 h1 h2) s
      = Done (bool_decide (c2 b < c1 a)) s) as Hall.
  { intros c1 c2 h1 h2 a b H1 H2.
    unfold related.operator_eq, related.operator_ne, related.operator_le,
      related.operator_lt, related.operator_ge, related.operator_gt.
    rewrite (run_compare_converted N.eqb c1 c2 _ _ _ _ _ H1 H2).
    rewrite (run_compare_converted (λ x y, negb (x =? y)) c1 c2 _ _ _ _ _ H1 H2).
    rewrite (run_compare_converted N.leb c1 c2 _ _ _ _ _ H1 H2).
    rewrite (run_compare_converted N.ltb c1 c2 _ _ _ _ _ H1 H2).
    rewrite (run_compare_converted (λ x y, y <=? x) c1 c2 _ _ _ _ _ H1 H2).
    rewrite (run_compare_converted (λ x y, y <? x) c1 c2 _ _ _ _ _ H1 H2).
    repeat split; f_equal.
    - destruct (N.eqb_spec (c1 a) (c2 b));
        [by rewrite bool_decide_eq_true_2 | by rewrite bool_decide_eq_false_2].
    - destruct (N.eqb_spec (c1 a) (c2 b)); cbn [negb];
        [rewrite bool_decide_eq_false_2 | rewrite bool_decide_eq_true_2]; tauto.
    - destruct (N.leb_spec (c1 a) (c2 b));
        [rewrite bool_decide_eq_true_2 | rewrite bool_decide_eq_false_2]; lia.
    - destruct (N.ltb_spec (c1 a) (c2 b));
        [rewrite bool_decide_eq_true_2 | rewrite bool_decide_eq_false_2]; lia.
    - destruct (N.leb_spec (c2 b) (c1 a));
        [rewrite bool_decide_eq_true_2 | rewrite bool_decide_eq_false_2]; lia.
    - destruct (N.ltb_spec (c2 b) (c1 a));
        [rewrite bool_decide_eq_true_2 | rewrite bool_decide_eq_false_2]; lia. }
  split; [exact (Hall cl cr l r p q Hl Hr) |].
  split; [exact (Hall same_type same_type l r p q Hl Hr) |].
  destruct (Hall cl cr l r p q Hl Hr) as (Heq & Hne & _).
  destruct (Hall cr cl r l q p Hr Hl) as (Heq' & Hne' & _).
  split.
  - intros -> ->. rewrite Heq, Hne, !convert_null.
    by rewrite bool_decide_eq_true_2, bool_decide_eq_false_2 by tauto.
  - intros -> Hq. pose proof (convert_nonnull cr q Hq) as Hcq.
    rewrite Heq, Hne, Heq', Hne', !convert_null.
    rewrite (bool_decide_eq_false_2 (nullptr = cr q)) by congruence.
    rewrite (bool_decide_eq_true_2 (nullptr ≠ cr q)) by congruence.
    rewrite (bool_decide_eq_false_2 (cr q = nullptr)) by congruence.
    by rewrite (bool_decide_eq_true_2 (cr q ≠ nullptr)) by congruence.
Qed.

(** Equality of two handles does not follow the stored addresses when
    the element types differ: a handle to a base subobject at 20 and
    a handle to the derived object at 16, of which that subobject is
    part, compare equal, and [<=] holds while [>] does not, though 20
    and 16 differ and 20 is the greater. *)
Lemma related_handles_equal_at_different_addresses :
  run (related.operator_eq same_type (to_base 4) 1%nat 2%nat) base_and_derived
    = Done true base_and_derived ∧
  run (related.operator_le same_type (to_base 4) 1%nat 2%nat) base_and_derived
    = Done true base_and_derived ∧
  run (related.operator_gt same_type (to_base 4) 1%nat 2%nat) base_and_derived
    = Done false base_and_derived ∧
  ¬ (∀ (cl cr : conversion) s l r p q,
       handles s !! l = Some p → handles s !! r = Some q →
       run (related.operator_eq cl cr l r) s = Done (bool_decide (p = q)) s).
Proof.
  split; [reflexivity |]. split; [reflexivity |]. split; [reflexivity |].
  intros Hall.
  specialize (Hall same_type (to_base 4) base_and_derived 1%nat 2%nat 20 16
                eq_refl eq_refl).
  vm_compute in Hall. discriminate.
Qed.

(** The operators on handles of one element type are the case of no
    conversion. *)
Lemma related_same_type l r :
  related.operator_eq same_type same_type l r = operator_eq l r ∧
  related.operator_ne same_type same_type l r = operator_ne l r ∧
  related.operator_le same_type same_type l r = operator_le l r ∧
  related.operator_lt same_type same_type l r = operator_lt l r ∧
  related.operator_ge same_type same_type l r = operator_ge l r ∧
  related.operator_gt same_type same_type l r = operator_gt l r.
Proof. repeat split; reflexivity. Qed.

Lemma comparisons_follow_converted_addresses_witness :
  handles base_and_derived !! 1%nat = Some 20 ∧
  handles base_and_derived !! 2%nat = Some 16 ∧
  run (related.operator_eq same_type (to_base 4) 1%nat 2%nat) base_and_derived
    = Done (bool_decide (same_type 20 = to_base 4 16)) base_and_derived.
Proof.
  split; [reflexivity |]. split; [reflexivity |].
  exact (proj1 (proj1 (comparisons_follow_converted_addresses
                         same_type (to_base 4) base_and_derived
                         1%nat 2%nat 20 16 eq_refl eq_refl))).
Defined.


(** * The assertions as the source spells them *)

(** The run-time reading of [reset] with an argument asserts the
    run-time value of the condition the source writes. *)
Lemma reset_ptr_asserts_condition this ptr s p :
  handles s !! this = Some p →
  run (unique_ptr.reset_ptr this ptr) s =
  run (assertion (holds ptr p reset_condition);;
       unique_ptr.destroy this;; store this ptr) s.
Proof.
  intros Hh. unfold unique_ptr.reset_ptr.
  by erewrite run_bind_done by (by apply run_load).
Qed.

(** C5.  The condition that [reset] with an argument hands to
    [static_assert] reads the parameter [ptr] and the member
    [native_ptr_], so it is not a constant expression, whatever the
    handle holds and whatever address is passed: the member as
    written is ill-formed, and no call of it destroys the old object,
    binds the new address or checks anything at run time.  Evaluated
    at run time the condition would be the check the member is meant
    to make: it is false exactly when [ptr] is a non-null address
    equal to the one held. *)
Theorem reset_ptr_static_assert_ill_formed :
  constant reset_condition = None ∧
  as_written.reset_ptr = IllFormed ∧
  (∀ ptr p, holds ptr p reset_condition = (nullptr =? ptr) || negb (p =? ptr)) ∧
  (∀ ptr p, holds ptr p reset_condition = false ↔ ptr ≠ nullptr ∧ p = ptr).
Proof.
  split; [reflexivity |]. split; [reflexivity |]. split; [reflexivity |].
  intros ptr p. cbn [holds reset_condition operand_value].
  destruct (N.eqb_spec nullptr ptr) as [<- | Hn]; cbn [orb].
  - split; [done | intros [? _]; done].
  - destruct (N.eqb_spec p ptr) as [-> | Hne]; cbn [negb].
    + split; [intros _; split; congruence | done].
    + split; [done | intros [_ ?]; done].
Qed.

(** C10.  The condition that [operator*] and [operator->] hand to
    [static_assert] reads the member [native_ptr_], so it is not a
    constant expression: both members as written are ill-formed, on
    an empty handle and on a non-empty one alike, and no dereference
    returns the owned object or stops at a run-time check.  Evaluated
    at run time the condition would be the precondition the members
    are meant to check: it holds exactly when the handle is not
    empty. *)
Theorem dereference_static_assert_ill_formed :
  constant deref_condition = None ∧
  as_written.operator_deref = IllFormed ∧
  as_written.operator_arrow = IllFormed ∧
  (∀ ptr p, holds ptr p deref_condition = negb (nullptr =? p)) ∧
  (∀ ptr p, holds ptr p deref_condition = true ↔ p ≠ nullptr).
Proof.
  split; [reflexivity |]. split; [reflexivity |]. split; [reflexivity |].
  split; [reflexivity |].
  intros ptr p. cbn [holds deref_condition operand_value].
  destruct (N.eqb_spec nullptr p) as [<- | Hn]; cbn [negb].
  - split; [done | intros Hc; by destruct Hc].
  - split; [intros _; congruence | done].
Qed.

(** * Further properties, continued *)

(** X13.  No dangling handle.  In every state a client reaches by
    calls within the contract, no live handle holds the address of an
    object that has been destroyed. *)
Theorem reachable_no_dangling s h p :
  reachable s →
  handles s !! h = Some p →
  p ≠ nullptr →
  p ∉ deleted s.
Proof. intros Hs. apply (inv_alive s (reachable_inv s Hs)). Qed.

Lemma one_destroyed_reachable : reachable one_destroyed.
Proof.
  eapply (reachable_call contract two_handles (Call_dtor 1%nat));
    [exact two_handles_reachable | done | vm_compute; reflexivity].
Qed.

Lemma reachable_no_dangling_witness :
  reachable one_destroyed ∧
  handles one_destroyed !! 2%nat = Some 7 ∧
  7 ≠ nullptr ∧
  7 ∉ deleted one_destroyed.
Proof.
  assert (7 ≠ nullptr) as Hn by (unfold nullptr; lia).
  split; [exact one_destroyed_reachable |]. split; [reflexivity |].
  split; [exact Hn |].
  exact (reachable_no_dangling one_destroyed 2%nat 7
           one_destroyed_reachable eq_refl Hn).
Defined.

Lemma run_assign_call dst src s pd ps :
  dst ≠ src →
  handles s !! dst = Some pd → handles s !! src = Some ps →
  run (assign_call dst src) s =
  Done (dst, fresh (dom (handles s)))
       (State (<[fresh (dom (handles s)) := pd]>
                (<[dst := ps]> (<[src := nullptr]>
                  (<[fresh (dom (handles s)) := ps]> (handles s)))))
              (deleted s)).
Proof.
  intros Hne Hd Hs. unfold assign_call.
  pose proof (fresh_loc_dead (handles s)) as Hfresh.
  assert (fresh (dom (handles s)) ≠ dst) as Hfd by (apply fresh_loc_ne; eauto).
  assert (fresh (dom (handles s)) ≠ src) as Hfs by (apply fresh_loc_ne; eauto).
  run_step. set (param := fresh (dom (handles s))) in *.
  erewrite run_bind_done by (by apply run_ctor_copy).
  erewrite run_bind_done
    by (eapply run_operator_assign; cbn [handles]; simplify_map_eq; done).
  by rewrite run_ret.
Qed.


